(** * Flatten: path transformation and rule engine of [src/index.ts]

    A shallow embedding of the flatten utility.  JavaScript strings are
    modelled as [string] (sequences of characters), arrays as [list], the
    module-level accumulators ([copiedFiles], [skippedFiles], [errorFiles],
    [totalBytes]) as a record threaded through the calls together with the
    state of the file system, and the external collaborators ([globSync],
    [minimatch], [statSync], [copyFileSync], [join] of [node:path]) as the
    fields of a class [Host], in which a call that throws returns [None].
    A Number is the rational value of a double, [Infinity] or [NaN], and
    [Number.parseFloat] rounds the value of a numeral to the nearest
    double.  Console output is not modelled; the branch a loop iteration
    takes is returned as an [Outcome].

    The rest of the script follows the rule engine: the reading of the
    rule file and of [.gitignore] ([Config]), the argument loop ([Cli]),
    [formatBytes] ([Format]) and the script from its arguments to its end
    ([Program]), with the further file-system operations as the fields of
    a class [SystemHost]. *)

From Stdlib Require Import Strings.String Strings.Ascii List Bool ZArith QArith
  Qround Qpower Lia Permutation.
From Stdlib Require Import DecimalString DecimalN DecimalPos.
Import ListNotations.
Open Scope string_scope.

(** ** JavaScript string and array primitives used by the source *)

Module JS.

(** [s.replaceAll(pat, rep)] for a one-character pattern. *)
Fixpoint replaceAll (pat : ascii) (rep : string) (s : string) : string :=
  match s with
  | EmptyString => EmptyString
  | String c r =>
      if Ascii.eqb c pat then rep ++ replaceAll pat rep r
      else String c (replaceAll pat rep r)
  end.

(** [s.split(sep)] for a one-character separator: never empty,
    [""] splits to [[""]]. *)
Fixpoint split (sep : ascii) (s : string) : list string :=
  match s with
  | EmptyString => [EmptyString]
  | String c r =>
      if Ascii.eqb c sep then EmptyString :: split sep r
      else match split sep r with
           | [] => [String c EmptyString]
           | h :: t => String c h :: t
           end
  end.

(** [Boolean(s)] on a string: the empty string is the only falsy one. *)
Definition truthyString (s : string) : bool :=
  match s with EmptyString => false | String _ _ => true end.

(** [arr.includes(x)] on an array of strings. *)
Definition includes (arr : list string) (x : string) : bool :=
  existsb (String.eqb x) arr.

(** [arr.join(sep)]. *)
Definition join (sep : string) (arr : list string) : string :=
  String.concat sep arr.

(** Whether character [c] occurs in [s]. *)
Fixpoint hasChar (c : ascii) (s : string) : bool :=
  match s with
  | EmptyString => false
  | String d r => Ascii.eqb d c || hasChar c r
  end.

End JS.

(** ** Path transformer (index.ts, lines 468-473) *)

(** [sep] of [node:path] is ["/"] on POSIX and a backslash on Windows. *)
Inductive platform : Type := posix | win32.

Definition pathSeparator (p : platform) : ascii :=
  match p with
  | posix => "/"%char
  | win32 => "\"%char
  end.

(** The components the second filter removes. *)
Definition unwanted : list string := ["node_modules"; "."].

Definition flattenedFileName (p : platform) (sourceFile : string) : string :=
  JS.join "_"
    (filter (fun component => negb (JS.includes unwanted component))
       (filter JS.truthyString
          (JS.split (pathSeparator p)
             (JS.replaceAll "_"%char "__" sourceFile)))).

(** The component sequence of a source path as the specification speaks of
    it: the raw path split on the separator, empty components dropped, then
    [.] and [node_modules] dropped. *)
Definition specComponents (p : platform) (sourceFile : string) : list string :=
  filter (fun component => negb (JS.includes unwanted component))
    (filter JS.truthyString (JS.split (pathSeparator p) sourceFile)).


(** *** Notions used to state what the transform preserves *)

(** Step 1 of the transform on one string. *)
Definition escape (s : string) : string := JS.replaceAll "_"%char "__" s.

(** The components of the raw path that reach the join: empty components
    and [.] dropped. *)
Definition keptComponents (p : platform) (sourceFile : string) : list string :=
  filter (fun component => negb (String.eqb component "."))
    (filter JS.truthyString (JS.split (pathSeparator p) sourceFile)).

Definition startsWithUnderscore (s : string) : bool :=
  match s with
  | String c _ => Ascii.eqb c "_"
  | EmptyString => false
  end.

(** Every underscore of [s] is one of a pair of adjacent underscores,
    reading from the left. *)
Fixpoint pairedUnderscores (s : string) : bool :=
  match s with
  | EmptyString => true
  | String c r =>
      if Ascii.eqb c "_" then
        match r with
        | String d r' => Ascii.eqb d "_" && pairedUnderscores r'
        | EmptyString => false
        end
      else pairedUnderscores r
  end.

(** A component that is not empty and does not start with an underscore. *)
Definition plainStart (component : string) : Prop :=
  JS.truthyString component = true /\ startsWithUnderscore component = false.

(** What follows a component in a flat name: nothing, or the joining
    underscore and a character that is not an underscore. *)
Definition separatorTail (r : string) : Prop :=
  match r with
  | EmptyString => True
  | String a EmptyString => False
  | String a (String b _) => a = "_"%char /\ b <> "_"%char
  end.

(** Step 2 of the transform as the specification words it: the string is
    split at every ["/"] and at every separator of the platform. *)
Fixpoint splitBoth (p : platform) (s : string) : list string :=
  match s with
  | EmptyString => [EmptyString]
  | String c r =>
      if Ascii.eqb c "/" || Ascii.eqb c (pathSeparator p) then
        EmptyString :: splitBoth p r
      else match splitBoth p r with
           | [] => [String c EmptyString]
           | h :: t => String c h :: t
           end
  end.

(** The flat name with step 2 as the specification words it. *)
Definition specFlatName (p : platform) (sourceFile : string) : string :=
  JS.join "_"
    (filter (fun component => negb (JS.includes unwanted component))
       (filter JS.truthyString (splitBoth p (escape sourceFile)))).

(** ** Size-limit argument (index.ts, lines 163-173) *)

Module SizeArg.

(** [\d] of the regular expression: an ASCII decimal digit. *)
Definition isDigit (c : ascii) : bool :=
  let n := nat_of_ascii c in (48 <=? n)%nat && (n <=? 57)%nat.

(** The longest run of digits at the start of [s], and what follows it:
    the greedy [\d+] (a shorter run leaves a digit where the expression
    wants a dot or a letter, so giving digits back never helps). *)
Fixpoint spanDigits (s : string) : string * string :=
  match s with
  | EmptyString => (EmptyString, EmptyString)
  | String c r =>
      if isDigit c then let '(ds, rest) := spanDigits r in (String c ds, rest)
      else (EmptyString, s)
  end.

(** [s] is empty or starts with a character that is no digit. *)
Definition startsWithNonDigit (s : string) : Prop :=
  match s with
  | EmptyString => True
  | String c _ => isDigit c = false
  end.

(** [c.toUpperCase()] on one character; only ASCII letters change. *)
Definition upperChar (c : ascii) : ascii :=
  let n := nat_of_ascii c in
  if (97 <=? n)%nat && (n <=? 122)%nat then ascii_of_nat (n - 32) else c.

Fixpoint toUpperCase (s : string) : string :=
  match s with
  | EmptyString => EmptyString
  | String c r => String (upperChar c) (toUpperCase r)
  end.

(** The table [units]; a key that is absent reads [undefined]. *)
Definition units (key : string) : option Z :=
  if String.eqb key "B" then Some 1%Z
  else if String.eqb key "KB" then Some 1024%Z
  else if String.eqb key "MB" then Some (1024 * 1024)%Z
  else if String.eqb key "GB" then Some (1024 * 1024 * 1024)%Z
  else None.

(** [(B|KB|MB|GB)$] under the [i] flag, at the text that is left. *)
Definition unitAtEnd (rest : string) : bool :=
  JS.includes ["B"; "KB"; "MB"; "GB"] (toUpperCase rest).

(** [sizeStr.match(/^(\d+(?:\.\d+)?)(B|KB|MB|GB)$/i)]: the two captures,
    or [None] for [null].  When the dot is not followed by a digit the
    optional group matches nothing and the unit is looked for at the dot. *)
Definition sizeMatch (sizeStr : string) : option (string * string) :=
  let '(intPart, afterInt) := spanDigits sizeStr in
  match intPart with
  | EmptyString => None
  | String _ _ =>
      let '(size, rest) :=
        match afterInt with
        | String "."%char afterDot =>
            let '(fracPart, afterFrac) := spanDigits afterDot in
            match fracPart with
            | EmptyString => (intPart, afterInt)
            | String _ _ => (intPart ++ String "."%char fracPart, afterFrac)
            end
        | _ => (intPart, afterInt)
        end in
      if unitAtEnd rest then Some (size, rest) else None
  end.

(** A Number of the program: the value of a finite double, [Infinity] or
    [NaN].  Only numbers that are not negative arise here. *)
Inductive number : Type :=
| Finite (value : Q)
| Infinity
| NaN.

(** The number a run of decimal digits denotes, read from the left. *)
Fixpoint digitsValue (acc : Z) (ds : string) : Z :=
  match ds with
  | EmptyString => acc
  | String c r => digitsValue (10 * acc + (Z.of_nat (nat_of_ascii c) - 48)) r
  end.

(** The mathematical value of the decimal literal at the start of [text],
    for a text that starts with a digit: digits, and when a dot follows
    them the digits after it.  [None] when [text] does not start with a
    digit. *)
Definition decimalValue (text : string) : option Q :=
  let '(intPart, afterInt) := spanDigits text in
  match intPart with
  | EmptyString => None
  | String _ _ =>
      match afterInt with
      | String "."%char afterDot =>
          let fracPart := fst (spanDigits afterDot) in
          Some (inject_Z (digitsValue 0 (intPart ++ fracPart))
                / inject_Z (10 ^ Z.of_nat (String.length fracPart)))
      | _ => Some (inject_Z (digitsValue 0 intPart))
      end
  end.

(** The integer [e] with [2^e <= q < 2^(e+1)], for [0 < q]. *)
Definition log2floor (q : Q) : Z :=
  let e := (Z.log2 (Qnum q) - Z.log2 (Zpos (Qden q)))%Z in
  if Qle_bool (2 ^ e) q then e else (e - 1)%Z.

(** The integer nearest to [x]; of two, the even one. *)
Definition roundHalfEven (x : Q) : Z :=
  let f := Qfloor x in
  match Qcompare (x - inject_Z f) (1 # 2) with
  | Lt => f
  | Gt => (f + 1)%Z
  | Eq => if Z.even f then f else (f + 1)%Z
  end.

(** The double nearest to a rational [q] that is not negative, ties to
    the even significand (IEEE 754 binary64): a significand of 53 bits
    at the exponent of [q], of fewer bits below [2^-1022], and [Infinity]
    when the rounded value reaches [2^1024]. *)
Definition roundToDouble (q : Q) : number :=
  if Qle_bool q 0 then Finite 0
  else
    let e := log2floor q in
    let s := Z.max (e - 52) (-1074) in
    let d := inject_Z (roundHalfEven (q / 2 ^ s)) * 2 ^ s in
    if Qle_bool (2 ^ 1024) d then Infinity else Finite d.

(** [Number.parseFloat] on a text that starts with a digit and holds no
    exponent part, which are the texts the expression of [parseFileSize]
    captures: the double nearest to the value of the leading decimal
    literal, as V8 computes it.  A text that does not start with a digit
    reads [NaN] here; the signs, blanks, exponents and the word Infinity
    that [parseFloat] also reads are left out. *)
Definition parseFloat (text : string) : number :=
  match decimalValue text with
  | Some q => roundToDouble q
  | None => NaN
  end.

(** The product of a Number that is not negative and a positive whole
    factor: the exact product rounded to a double. *)
Definition times (x : number) (factor : Z) : number :=
  match x with
  | Finite d => roundToDouble (d * inject_Z factor)
  | Infinity => Infinity
  | NaN => NaN
  end.

(** What a call of [parseFileSize] does: return a whole number of bytes,
    return [Infinity], return [NaN] (a multiplication by [undefined]), or
    throw. *)
Inductive sizeResult : Type :=
| Bytes (n : Z)
| Infinite
| NotANumber
| Throws (message : string).

(** [Math.floor]. *)
Definition floor (x : number) : sizeResult :=
  match x with
  | Finite d => Bytes (Qfloor d)
  | Infinity => Infinite
  | NaN => NotANumber
  end.

Definition parseFileSize (sizeStr : string) : sizeResult :=
  match sizeMatch sizeStr with
  | None =>
      Throws ("Invalid file size format: " ++ sizeStr
              ++ ". Use format like: 1MB, 500KB, 2GB")
  | Some (size, unit) =>
      match units (toUpperCase unit) with
      | Some factor => floor (times (parseFloat size) factor)
      | None => NotANumber
      end
  end.

(** *** The format as the specification words it *)

(** A non-empty run of decimal digits. *)
Definition digits (s : string) : Prop :=
  s <> EmptyString /\ Forall (fun c => isDigit c = true) (list_ascii_of_string s).

(** A number, decimals allowed: digits, or digits, a dot and digits. *)
Inductive decimalNumber : string -> Prop :=
| dn_integer : forall ds, digits ds -> decimalNumber ds
| dn_decimal : forall ds fs,
    digits ds -> digits fs -> decimalNumber (ds ++ String "."%char fs).

(** The four units, with the power of 1024 each stands for. *)
Inductive sizeUnit : Type := unitB | unitKB | unitMB | unitGB.

Definition exponent (u : sizeUnit) : Z :=
  match u with unitB => 0 | unitKB => 1 | unitMB => 2 | unitGB => 3 end%Z.

Definition eitherCase (upper lower c : ascii) : Prop := c = upper \/ c = lower.

(** [spells u s]: [s] is the name of [u], each letter in either case. *)
Definition spells (u : sizeUnit) (s : string) : Prop :=
  match u with
  | unitB => exists b, s = String b EmptyString /\ eitherCase "B" "b" b
  | unitKB => exists k b, s = String k (String b EmptyString)
                          /\ eitherCase "K" "k" k /\ eitherCase "B" "b" b
  | unitMB => exists m b, s = String m (String b EmptyString)
                          /\ eitherCase "M" "m" m /\ eitherCase "B" "b" b
  | unitGB => exists g b, s = String g (String b EmptyString)
                          /\ eitherCase "G" "g" g /\ eitherCase "B" "b" b
  end.

(** [sizeFormat s num u]: [s] is the number [num] immediately followed by a
    spelling of the unit [u]. *)
Definition sizeFormat (s num : string) (u : sizeUnit) : Prop :=
  exists unitText, s = num ++ unitText /\ decimalNumber num /\ spells u unitText.

End SizeArg.

(** ** Rule engine (index.ts, lines 384-386 and 419-510) *)

(** The collaborators the engine calls.  [FS] is the state of the file
    system; an operation that can throw returns [None] or [false] for the
    throw.  [globSync] and [minimatch] throw a [TypeError] for a pattern
    of more than 65536 characters.  [copyFileSync] returns the file system
    it leaves behind in both cases. *)
Class Host (FS : Type) : Type := {
  globSync : FS -> string -> bool -> option (list string);
  minimatch : string -> string -> option bool;
  statSync : FS -> string -> option Z;
  copyFileSync : FS -> string -> string -> FS * bool;
  pathJoin : string -> string -> string;
  hostPlatform : platform
}.

(** The command-line settings the engine reads. *)
Record Options : Type := {
  targetPath : string;
  followSymlinks : bool;
  dryRun : bool;
  maxFileSize : option Z
}.

Definition withMaxFileSize (limit : option Z) (opts : Options) : Options :=
  {| targetPath := targetPath opts;
     followSymlinks := followSymlinks opts;
     dryRun := dryRun opts;
     maxFileSize := limit |}.

(** The branch one iteration of the copy loop takes. *)
Inductive Outcome : Type :=
| Copied
| WouldCopy
| SkippedSize
| SkippedDuplicate
| Error.

(** The branches that execute [successfulCopies++]. *)
Definition countsAsCopy (o : Outcome) : bool :=
  match o with
  | Copied | WouldCopy => true
  | _ => false
  end.

(** The file system together with the module-level accumulators. *)
Record RunState (FS : Type) : Type := mkRunState {
  fs : FS;
  copiedFiles : list string;
  skippedFiles : list string;
  errorFiles : list string;
  totalBytes : Z
}.

Arguments mkRunState {FS}.
Arguments fs {FS}.
Arguments copiedFiles {FS}.
Arguments skippedFiles {FS}.
Arguments errorFiles {FS}.
Arguments totalBytes {FS}.

Definition initialState {FS : Type} (disk : FS) : RunState FS :=
  mkRunState disk [] [] [] 0%Z.

(** [skippedFiles.push(sourceFile)]. *)
Definition pushSkipped {FS : Type} (st : RunState FS) (sourceFile : string) : RunState FS :=
  mkRunState (fs st) (copiedFiles st) (skippedFiles st ++ [sourceFile])
    (errorFiles st) (totalBytes st).

(** [errorFiles.push(sourceFile)] of the catch block. *)
Definition pushError {FS : Type} (st : RunState FS) (sourceFile : string) : RunState FS :=
  mkRunState (fs st) (copiedFiles st) (skippedFiles st)
    (errorFiles st ++ [sourceFile]) (totalBytes st).

Definition withFs {FS : Type} (disk : FS) (st : RunState FS) : RunState FS :=
  mkRunState disk (copiedFiles st) (skippedFiles st) (errorFiles st) (totalBytes st).

(** [maxFileSize && fileSize > maxFileSize]: [null] and [0] are falsy. *)
Definition exceedsLimit (limit : option Z) (fileSize : Z) : bool :=
  match limit with
  | None => false
  | Some l => negb (l =? 0)%Z && (l <? fileSize)%Z
  end.

Section Engine.

Context {FS : Type} {host : Host FS}.

Definition flatName (sourceFile : string) : string :=
  flattenedFileName hostPlatform sourceFile.

Definition targetFilePath (opts : Options) (sourceFile : string) : string :=
  pathJoin (targetPath opts) (flatName sourceFile).

(** The body of the [for] loop of [runRule], with its [try]/[catch]. *)
Definition processFile (opts : Options) (st : RunState FS) (sourceFile : string)
  : RunState FS * Outcome :=
  match statSync (fs st) sourceFile with
  | None => (pushError st sourceFile, Error)
  | Some fileSize =>
      if exceedsLimit (maxFileSize opts) fileSize then
        (pushSkipped st sourceFile, SkippedSize)
      else if JS.includes (copiedFiles st) (targetFilePath opts sourceFile) then
        (pushSkipped st sourceFile, SkippedDuplicate)
      else if dryRun opts then
        (mkRunState (fs st) (copiedFiles st) (skippedFiles st) (errorFiles st)
           (totalBytes st + fileSize), WouldCopy)
      else
        match copyFileSync (fs st) sourceFile (targetFilePath opts sourceFile) with
        | (disk, true) =>
            (mkRunState disk (copiedFiles st ++ [targetFilePath opts sourceFile])
               (skippedFiles st) (errorFiles st) (totalBytes st + fileSize), Copied)
        | (disk, false) => (pushError (withFs disk st) sourceFile, Error)
        end
  end.

(** The [for] loop: the state after it, [successfulCopies], and the
    outcome of every iteration in order. *)
Fixpoint copyLoop (opts : Options) (st : RunState FS) (successfulCopies : Z)
  (files : list string) : RunState FS * Z * list (string * Outcome) :=
  match files with
  | [] => (st, successfulCopies, [])
  | sourceFile :: rest =>
      let '(st1, o) := processFile opts st sourceFile in
      let n := if countsAsCopy o then (successfulCopies + 1)%Z else successfulCopies in
      let '(st2, total, log) := copyLoop opts st1 n rest in
      (st2, total, (sourceFile, o) :: log)
  end.

(** [matchingFiles.filter((file) => !minimatch(file, denyRule))]: the
    files for which [minimatch] returns false, or [None] when a call of
    [minimatch] throws.  On an empty array [minimatch] is not called. *)
Fixpoint filterOut (denyRule : string) (matchingFiles : list string)
  : option (list string) :=
  match matchingFiles with
  | [] => Some []
  | file :: rest =>
      match minimatch file denyRule with
      | None => None
      | Some excluded =>
          match filterOut denyRule rest with
          | None => None
          | Some kept => Some (if excluded then kept else file :: kept)
          end
      end
  end.

(** The exclusion filter of [runRule]: one [filter] per deny rule, in the
    order of the rules; [None] when one of them throws. *)
Definition applyDenyRules (denyRules : list string) (matchingFiles : list string)
  : option (list string) :=
  if (0 <? length denyRules)%nat then
    fold_left
      (fun files denyRule =>
         match files with
         | Some remaining => filterOut denyRule remaining
         | None => None
         end)
      denyRules (Some matchingFiles)
  else Some matchingFiles.

(** [runRule]: the state after the rule, the number it returns and the
    outcome of every file of its copy loop, or [None] when [globSync] or
    the exclusion filter throws, which happens before any file is
    processed and outside the [try] of the copy loop. *)
Definition runRule (opts : Options) (denyRules : list string) (st : RunState FS)
  (pattern : string) : option (RunState FS * Z * list (string * Outcome)) :=
  match globSync (fs st) pattern (followSymlinks opts) with
  | None => None
  | Some found =>
      match applyDenyRules denyRules found with
      | None => None
      | Some matchingFiles =>
          if (length matchingFiles =? 0)%nat then Some (st, 0%Z, [])
          else Some (copyLoop opts st 0%Z matchingFiles)
      end
  end.

(** One call of the callback of [reduce].  The last component tells that
    an exception has left [reduce]; the rules after it are not run. *)
Definition runStep (opts : Options) (denyRules : list string)
  (acc : RunState FS * Z * list (string * list (string * Outcome)) * bool)
  (rule : string)
  : RunState FS * Z * list (string * list (string * Outcome)) * bool :=
  let '(st0, total, logs, thrown) := acc in
  if thrown then acc
  else
    match runRule opts denyRules st0 rule with
    | Some (st1, n, log) => (st1, (total + n)%Z, (logs ++ [(rule, log)])%list, false)
    | None => (st0, total, logs, true)
    end.

(** [copyRules.reduce((acc, rule) => acc + runRule(rule, denyRules), 0)]
    with the accumulators, the sum and each rule's outcomes as they are
    when [reduce] returns or is left by an exception. *)
Definition runAll (opts : Options) (denyRules copyRules : list string) (st : RunState FS)
  : RunState FS * Z * list (string * list (string * Outcome)) * bool :=
  fold_left (runStep opts denyRules) copyRules (st, 0%Z, [], false).

(** The accumulators, the sum and the outcomes of a run. *)
Definition run (opts : Options) (denyRules copyRules : list string) (st : RunState FS)
  : RunState FS * Z * list (string * list (string * Outcome)) :=
  fst (runAll opts denyRules copyRules st).

(** Whether the run is left by an exception of [globSync] or
    [minimatch], which nothing catches. *)
Definition runThrows (opts : Options) (denyRules copyRules : list string)
  (st : RunState FS) : bool :=
  snd (runAll opts denyRules copyRules st).

(** [reaches opts st log st']: processing the paths of [log] one after the
    other from [st] gives the outcomes of [log] and ends in [st']. *)
Inductive reaches (opts : Options) : RunState FS -> list (string * Outcome)
  -> RunState FS -> Prop :=
| reaches_nil : forall st, reaches opts st [] st
| reaches_cons : forall st sourceFile st1 o log st2,
    processFile opts st sourceFile = (st1, o) ->
    reaches opts st1 log st2 ->
    reaches opts st ((sourceFile, o) :: log) st2.





End Engine.

(** ** A small host for concrete runs

    A disk is a list of files with their sizes and a list of paths that
    cannot be written.  The pattern [**] lists every file, any other
    pattern names one file, and a pattern of more than 65536 characters
    makes [globSync] and [minimatch] throw; paths are joined by plain
    concatenation. *)

Module Toy.

Record Disk : Type := {
  files : list (string * Z);
  unwritable : list string
}.

Fixpoint sizeOf (fl : list (string * Z)) (path : string) : option Z :=
  match fl with
  | [] => None
  | (name, size) :: rest => if String.eqb name path then Some size else sizeOf rest path
  end.

(** The number of characters of a pattern, and the test [globSync] and
    [minimatch] start with. *)
Fixpoint lengthOf (s : string) : N :=
  match s with
  | EmptyString => 0%N
  | String _ r => N.succ (lengthOf r)
  end.

Definition tooLong (pattern : string) : bool := (65536 <? lengthOf pattern)%N.

Definition glob (d : Disk) (pattern : string) (follow : bool) : option (list string) :=
  if tooLong pattern then None
  else if String.eqb pattern "**" then Some (map fst (files d))
  else match sizeOf (files d) pattern with
       | Some _ => Some [pattern]
       | None => Some []
       end.

Definition matches (file pattern : string) : option bool :=
  if tooLong pattern then None
  else Some (String.eqb pattern "**" || String.eqb file pattern).

Definition copy (d : Disk) (source target : string) : Disk * bool :=
  match sizeOf (files d) source with
  | None => (d, false)
  | Some size =>
      if JS.includes (unwritable d) target then (d, false)
      else ({| files := (files d ++ [(target, size)])%list; unwritable := unwritable d |}, true)
  end.

#[export] Instance host : Host Disk := {
  globSync := glob;
  minimatch := matches;
  statSync := fun d path => sizeOf (files d) path;
  copyFileSync := copy;
  pathJoin := fun dir name => dir ++ name;
  hostPlatform := posix
}.

Definition options (dry : bool) (limit : option Z) : Options :=
  {| targetPath := "../out/"; followSymlinks := false; dryRun := dry; maxFileSize := limit |}.

(** A disk with one file of three bytes. *)
Definition oneFile : Disk :=
  {| files := [("a.txt", 3%Z)]; unwritable := [] |}.

(** A disk with two files whose flat names coincide. *)
Definition twoFiles : Disk :=
  {| files := [("a_/b", 5%Z); ("a/_b", 20%Z)]; unwritable := [] |}.

(** A disk with a file of 1024 bytes and a file of 1025 bytes. *)
Definition boundaryFiles : Disk :=
  {| files := [("exact.bin", 1024%Z); ("over.bin", 1025%Z)]; unwritable := [] |}.

(** A disk on which the copy of [a.txt] cannot be written. *)
Definition readOnlyTarget : Disk :=
  {| files := [("a.txt", 3%Z); ("b.txt", 4%Z)]; unwritable := ["../out/a.txt"] |}.

(** [s] doubled [n] times. *)
Fixpoint doubled (n : nat) (s : string) : string :=
  match n with
  | O => s
  | S k => doubled k (s ++ s)
  end.

(** A pattern of 65537 characters. *)
Definition longPattern : string := String "*" (doubled 16 "*").

End Toy.

(** ** Reading the outcomes of a run *)

(** The outcomes of all rules of a run, in processing order. *)
Definition flatLog (logs : list (string * list (string * Outcome)))
  : list (string * Outcome) :=
  concat (map snd logs).

(** The source paths of a log whose outcome satisfies [p], in order. *)
Definition sourcesWith (p : Outcome -> bool) (log : list (string * Outcome))
  : list string :=
  map fst (filter (fun entry => p (snd entry)) log).

Definition isCopied (o : Outcome) : bool :=
  match o with Copied => true | _ => false end.

Definition isSkipped (o : Outcome) : bool :=
  match o with SkippedSize | SkippedDuplicate => true | _ => false end.

Definition isError (o : Outcome) : bool :=
  match o with Error => true | _ => false end.

(** ** Rule file and [.gitignore] (index.ts, lines 194-205 and 343-358)

    In this part a [string] stands for a JavaScript string whose code
    units are below 256, so that every character of the model is a code
    unit of the program. *)

Module Config.

Definition LF : ascii := "010"%char.
Definition CR : ascii := "013"%char.

(** The white space and line terminators [trim] removes: TAB, LF, VT, FF,
    CR, SP and NBSP. *)
Definition isWhiteSpace (c : ascii) : bool :=
  let n := nat_of_ascii c in
  ((n =? 9) || (n =? 10) || (n =? 11) || (n =? 12) || (n =? 13) || (n =? 32)
   || (n =? 160))%nat.

(** The characters the dot of a regular expression does not match. *)
Definition isLineTerminator (c : ascii) : bool :=
  Ascii.eqb c LF || Ascii.eqb c CR.

Fixpoint trimStart (s : string) : string :=
  match s with
  | EmptyString => EmptyString
  | String c r => if isWhiteSpace c then trimStart r else s
  end.

Fixpoint trimEnd (s : string) : string :=
  match s with
  | EmptyString => EmptyString
  | String c r =>
      match trimEnd r with
      | EmptyString => if isWhiteSpace c then EmptyString else String c EmptyString
      | String d r' => String c (String d r')
      end
  end.

(** [s.trim()]. *)
Definition trim (s : string) : string := trimEnd (trimStart s).

(** [s.startsWith(c)] for a one-character string. *)
Definition startsWith (c : ascii) (s : string) : bool :=
  match s with
  | EmptyString => false
  | String d _ => Ascii.eqb d c
  end.

(** [s.slice(1)]. *)
Definition slice1 (s : string) : string :=
  match s with
  | EmptyString => EmptyString
  | String _ r => r
  end.

(** [line.replace(/#.*$/gm, "")]: every match runs from a [#] to the next
    line terminator or to the end; the terminator stays.  [inComment]
    tells whether the scan is inside a match. *)
Fixpoint stripFrom (inComment : bool) (line : string) : string :=
  match line with
  | EmptyString => EmptyString
  | String c r =>
      if isLineTerminator c then String c (stripFrom false r)
      else if inComment then stripFrom true r
      else if Ascii.eqb c "#" then stripFrom true r
      else String c (stripFrom false r)
  end.

Definition stripComments (line : string) : string := stripFrom false line.

(** [flattenList]: the cleaned, non-empty lines of the rule file. *)
Definition flattenList (configText : string) : list string :=
  filter JS.truthyString
    (map trim (map stripComments (JS.split LF configText))).

(** [denyRules] as first computed (line 357). *)
Definition denyRulesOf (rules : list string) : list string :=
  map slice1 (filter (startsWith "!") rules).

(** [copyRules] (line 358). *)
Definition copyRulesOf (rules : list string) : list string :=
  filter (fun rule => negb (startsWith "!" rule)) rules.

(** The patterns [loadGitignorePatterns] returns for the text of the
    file. *)
Definition gitignorePatterns (content : string) : list string :=
  filter (fun line => JS.truthyString line && negb (startsWith "#" line))
    (map trim (JS.split LF content)).

(** [denyRules] after lines 361-369: the patterns of [.gitignore] are
    appended when the flag is set. *)
Definition withGitignore (respectGitignore : bool) (denyRules gitignore : list string)
  : list string :=
  if respectGitignore then
    if (0 <? length gitignore)%nat then (denyRules ++ gitignore)%list else denyRules
  else denyRules.

End Config.

(** ** Command line (index.ts, lines 58-71 and 210-288) *)

Module Cli.

(** [maxFileSize]: [null], a number of bytes, [Infinity] or [NaN]. *)
Inductive sizeLimit : Type :=
| NoLimit
| Limit (bytes : Z)
| LimitInfinity
| LimitNaN.

(** The module-level variables the argument loop assigns. *)
Record Settings : Type := mkSettings {
  targetPath : string;
  cleanFirst : bool;
  followSymlinks : bool;
  verbose : bool;
  dryRun : bool;
  respectGitignore : bool;
  maxFileSize : sizeLimit;
  showStats : bool;
  unknownArgs : list string
}.

(** How the argument loop ends: it runs to its end, or a branch calls
    [process.exit]. *)
Inductive ArgsOutcome : Type :=
| Parsed (s : Settings)
| InitRequested
| HelpRequested
| MaxSizeMissing
| MaxSizeInvalid (message : string).

(** [arg.slice(1).replace(/^-/, "")]. *)
Definition flagOf (arg : string) : string :=
  match Config.slice1 arg with
  | String "-"%char r => r
  | s => s
  end.

(** [s.endsWith(c)] for a one-character string. *)
Fixpoint endsWith (c : ascii) (s : string) : bool :=
  match s with
  | EmptyString => false
  | String d EmptyString => Ascii.eqb d c
  | String _ r => endsWith c r
  end.

Definition isOneOf (names : list string) (flag : string) : bool :=
  JS.includes names flag.

Section Arguments.

Variable os : platform.

(** [DEFAULT_TARGET_PATH], which depends on the working directory. *)
Variable defaultTargetPath : string.

Definition initialSettings : Settings :=
  mkSettings defaultTargetPath false false false false false NoLimit false [].

Definition pushUnknown (s : Settings) (arg : string) : Settings :=
  mkSettings (targetPath s) (cleanFirst s) (followSymlinks s) (verbose s) (dryRun s)
    (respectGitignore s) (maxFileSize s) (showStats s) (unknownArgs s ++ [arg]).

Definition setMaxFileSize (s : Settings) (limit : sizeLimit) : Settings :=
  mkSettings (targetPath s) (cleanFirst s) (followSymlinks s) (verbose s) (dryRun s)
    (respectGitignore s) limit (showStats s) (unknownArgs s).

Definition setTargetPath (s : Settings) (path : string) : Settings :=
  mkSettings path (cleanFirst s) (followSymlinks s) (verbose s) (dryRun s)
    (respectGitignore s) (maxFileSize s) (showStats s) (unknownArgs s).

(** The cases of the [switch] that set a flag and [break]. *)
Definition setFlag (flag : string) (s : Settings) : option Settings :=
  if isOneOf ["c"; "clean"] flag then
    Some (mkSettings (targetPath s) true (followSymlinks s) (verbose s) (dryRun s)
            (respectGitignore s) (maxFileSize s) (showStats s) (unknownArgs s))
  else if isOneOf ["s"; "symlinks"] flag then
    Some (mkSettings (targetPath s) (cleanFirst s) true (verbose s) (dryRun s)
            (respectGitignore s) (maxFileSize s) (showStats s) (unknownArgs s))
  else if isOneOf ["v"; "verbose"] flag then
    Some (mkSettings (targetPath s) (cleanFirst s) (followSymlinks s) true (dryRun s)
            (respectGitignore s) (maxFileSize s) (showStats s) (unknownArgs s))
  else if isOneOf ["n"; "dry-run"] flag then
    Some (mkSettings (targetPath s) (cleanFirst s) (followSymlinks s) (verbose s) true
            (respectGitignore s) (maxFileSize s) (showStats s) (unknownArgs s))
  else if isOneOf ["g"; "gitignore"] flag then
    Some (mkSettings (targetPath s) (cleanFirst s) (followSymlinks s) (verbose s) (dryRun s)
            true (maxFileSize s) (showStats s) (unknownArgs s))
  else if isOneOf ["stats"] flag then
    Some (mkSettings (targetPath s) (cleanFirst s) (followSymlinks s) (verbose s) (dryRun s)
            (respectGitignore s) (maxFileSize s) true (unknownArgs s))
  else None.

(** The [for] loop over [args]; the case [max-size] takes the next
    argument with [args[++i]]. *)
Fixpoint processArgs (args : list string) (s : Settings) : ArgsOutcome :=
  match args with
  | [] => Parsed s
  | arg :: rest =>
      if Config.startsWith "-" arg then
        let flag := flagOf arg in
        if isOneOf ["i"; "init"] flag then InitRequested
        else if isOneOf ["h"; "help"] flag then HelpRequested
        else
          match setFlag flag s with
          | Some s1 => processArgs rest s1
          | None =>
              if String.eqb flag "max-size" then
                match rest with
                | [] => MaxSizeMissing
                | sizeArg :: rest1 =>
                    if JS.truthyString sizeArg then
                      match SizeArg.parseFileSize sizeArg with
                      | SizeArg.Bytes n => processArgs rest1 (setMaxFileSize s (Limit n))
                      | SizeArg.Infinite => processArgs rest1 (setMaxFileSize s LimitInfinity)
                      | SizeArg.NotANumber => processArgs rest1 (setMaxFileSize s LimitNaN)
                      | SizeArg.Throws message => MaxSizeInvalid message
                      end
                    else MaxSizeMissing
                end
              else processArgs rest (pushUnknown s arg)
          end
      else if String.eqb (targetPath s) defaultTargetPath then
        processArgs rest
          (setTargetPath s
             (if endsWith (pathSeparator os) arg then arg
              else arg ++ String (pathSeparator os) EmptyString))
      else processArgs rest (pushUnknown s arg)
  end.

(** One turn of the loop: the arguments that are left and the settings
    with which the loop goes on, or the outcome with which it ends. *)
Definition argStep (arg : string) (rest : list string) (s : Settings)
  : (list string * Settings) + ArgsOutcome :=
  if Config.startsWith "-" arg then
    let flag := flagOf arg in
    if isOneOf ["i"; "init"] flag then inr InitRequested
    else if isOneOf ["h"; "help"] flag then inr HelpRequested
    else
      match setFlag flag s with
      | Some s1 => inl (rest, s1)
      | None =>
          if String.eqb flag "max-size" then
            match rest with
            | [] => inr MaxSizeMissing
            | sizeArg :: rest1 =>
                if JS.truthyString sizeArg then
                  match SizeArg.parseFileSize sizeArg with
                  | SizeArg.Bytes n => inl (rest1, setMaxFileSize s (Limit n))
                  | SizeArg.Infinite => inl (rest1, setMaxFileSize s LimitInfinity)
                  | SizeArg.NotANumber => inl (rest1, setMaxFileSize s LimitNaN)
                  | SizeArg.Throws message => inr (MaxSizeInvalid message)
                  end
                else inr MaxSizeMissing
            end
          else inl (rest, pushUnknown s arg)
      end
  else if String.eqb (targetPath s) defaultTargetPath then
    inl (rest,
         setTargetPath s
           (if endsWith (pathSeparator os) arg then arg
            else arg ++ String (pathSeparator os) EmptyString))
  else inl (rest, pushUnknown s arg).

(** The names the [switch] knows. *)
Definition knownFlags : list string :=
  ["i"; "init"; "h"; "help"; "c"; "clean"; "s"; "symlinks"; "v"; "verbose";
   "n"; "dry-run"; "g"; "gitignore"; "stats"; "max-size"].

(** What a flag-setting case of the [switch] amounts to, field by
    field. *)
Definition switchOn (flag : string) (s : Settings) : Settings :=
  mkSettings (targetPath s)
    (cleanFirst s || isOneOf ["c"; "clean"] flag)
    (followSymlinks s || isOneOf ["s"; "symlinks"] flag)
    (verbose s || isOneOf ["v"; "verbose"] flag)
    (dryRun s || isOneOf ["n"; "dry-run"] flag)
    (respectGitignore s || isOneOf ["g"; "gitignore"] flag)
    (maxFileSize s)
    (showStats s || isOneOf ["stats"] flag)
    (unknownArgs s).

(** The arguments that set [dryRun]. *)
Definition dryRunArgs : list string := ["-n"; "--n"; "-dry-run"; "--dry-run"].

(** The arguments that only set a flag. *)
Definition isSwitch (arg : string) : bool :=
  Config.startsWith "-" arg
  && isOneOf ["c"; "clean"; "s"; "symlinks"; "v"; "verbose"; "n"; "dry-run";
              "g"; "gitignore"; "stats"] (flagOf arg).

End Arguments.

End Cli.

(** ** Sizes for display (index.ts, lines 178-189) *)

Module Format.

Definition units : list string := ["B"; "KB"; "MB"; "GB"].

(** The decimal digits of a natural number, as JavaScript prints them. *)
Definition decimal (n : N) : string := NilEmpty.string_of_uint (N.to_uint n).

Fixpoint zeros (n : nat) : string :=
  match n with
  | O => EmptyString
  | S k => String "0" (zeros k)
  end.

(** The first [n] characters of [s], and the rest. *)
Fixpoint takeChars (n : nat) (s : string) : string :=
  match n, s with
  | S k, String c r => String c (takeChars k r)
  | _, _ => EmptyString
  end.

Fixpoint dropChars (n : nat) (s : string) : string :=
  match n, s with
  | S k, String _ r => dropChars k r
  | _, _ => s
  end.

(** [x.toFixed(f)] for a finite [x] of magnitude below [10^21], step by
    step as ECMAScript defines it: the sign, the integer [n] nearest to
    [x * 10^f] (the larger of two), its digits padded with zeros to
    [f + 1] places, and the dot before the last [f] of them. *)
Definition toFixed (x : Q) (f : nat) : string :=
  let negative := negb (Qle_bool 0 x) in
  let x1 := if negative then (- x)%Q else x in
  let n := Qfloor (x1 * inject_Z (10 ^ Z.of_nat f) + (1 # 2)) in
  let m := decimal (Z.to_N n) in
  let m1 :=
    if (f =? 0)%nat then m
    else
      let m0 :=
        if (String.length m <=? f)%nat then zeros (f + 1 - String.length m) ++ m
        else m in
      let k := String.length m0 in
      takeChars (k - f) m0 ++ String "."%char (dropChars (k - f) m0) in
  (if negative then "-" else EmptyString) ++ m1.

(** The [while] loop of [formatBytes]; [fuel] bounds the number of
    turns. *)
Fixpoint whileLoop (fuel : nat) (size : Q) (unitIndex : nat) : Q * nat :=
  match fuel with
  | O => (size, unitIndex)
  | S fuel1 =>
      if Qle_bool 1024 size && (unitIndex <? length units - 1)%nat then
        whileLoop fuel1 (size / 1024)%Q (S unitIndex)
      else (size, unitIndex)
  end.

(** [formatBytes] on a whole number of bytes.  For a number of bytes
    below [2^53] the divisions by 1024 are exact on doubles, so [size] is
    the rational the program holds. *)
Definition formatBytes (bytes : Z) : string :=
  let '(size, unitIndex) := whileLoop (length units) (inject_Z bytes) 0 in
  toFixed size (if (0 <? unitIndex)%nat then 1 else 0)
  ++ nth unitIndex units "undefined".

End Format.

(** A numeral of 310 digits, a size beyond the range of doubles. *)
Definition hugeNumeral : string := String "1" (Format.zeros 309).

(** ** The script as a whole (index.ts, lines 115-158 and 290-412)

    What the script does to the file system and how it ends; what it
    prints is left out. *)

(** The further collaborators of the script.  An operation that can throw
    returns [None] or [false] for the throw. *)
Class SystemHost (FS : Type) : Type := {
  engineHost :: Host FS;
  existsSync : FS -> string -> bool;
  mkdirSync : FS -> string -> option FS;
  rmSync : FS -> string -> FS * bool;
  readFileSync : FS -> string -> option string;
  writeFileSync : FS -> string -> string -> FS * bool;
  resolve : string -> string
}.

Module Program.

(** How the script ends: [process.exit] with a code, an exception that
    nothing catches, or the end of the script after the run. *)
Inductive Ending (FS : Type) : Type :=
| Exit (code : Z) (disk : FS)
| Uncaught (disk : FS)
| Completed (st : RunState FS) (totalFilesCopied : Z).

Arguments Exit {FS}.
Arguments Uncaught {FS}.
Arguments Completed {FS}.

(** The file system the script leaves behind. *)
Definition diskOf {FS : Type} (e : Ending FS) : FS :=
  match e with
  | Exit _ disk => disk
  | Uncaught disk => disk
  | Completed st _ => fs st
  end.

Definition FLATTEN_FILE : string := ".flatten".

(** The text [initializeFlattenFile] writes. *)
Definition initial : string :=
"# Flatten Configuration File
#
# List file patterns to include (one per line)
# Use # for comments and ! to exclude files

# Common project files
package.json
README.md

# Source code (adjust patterns for your project)
src/**/*.js
src/**/*.ts
src/**/*.jsx
src/**/*.tsx

# Configuration files
tsconfig.json
*.config.js
*.config.ts

# Exclusion rules (files to ignore)
!**/*.d.ts
!**/*.test.*
!**/*.spec.*
!**/node_modules/**
!**/.git/**
!**/dist/**
!**/build/**".

(** [maxFileSize] as the engine tests it in
    [maxFileSize && fileSize > maxFileSize]: [null] and [NaN] are falsy,
    and no size is greater than [Infinity]. *)
Definition limitOf (l : Cli.sizeLimit) : option Z :=
  match l with
  | Cli.Limit n => Some n
  | Cli.NoLimit | Cli.LimitInfinity | Cli.LimitNaN => None
  end.

Definition optionsOf (s : Cli.Settings) : Options :=
  {| targetPath := Cli.targetPath s;
     followSymlinks := Cli.followSymlinks s;
     dryRun := Cli.dryRun s;
     maxFileSize := limitOf (Cli.maxFileSize s) |}.

Section Script.

Context {FS : Type} {system : SystemHost FS}.

(** [DEFAULT_TARGET_PATH], which depends on the working directory. *)
Variable defaultTargetPath : string.

Definition FLATTEN_FILE_PATH : string := resolve FLATTEN_FILE.

(** [initializeFlattenFile]: [None] when it calls [process.exit(1)],
    otherwise the file system after the attempt to write. *)
Definition initializeFlattenFile (disk : FS) : option FS :=
  if existsSync disk FLATTEN_FILE then None
  else Some (fst (writeFileSync disk FLATTEN_FILE_PATH initial)).

(** The loop that removes the files found in the target directory: it
    ends the script at the first file that cannot be removed. *)
Fixpoint removeAll (disk : FS) (filesToRemove : list string) : FS + Ending FS :=
  match filesToRemove with
  | [] => inl disk
  | file :: rest =>
      match rmSync disk file with
      | (disk1, true) => removeAll disk1 rest
      | (disk1, false) => inr (Exit 1 disk1)
      end
  end.

(** Lines 310-337: create and clean the target directory, unless the run
    is a dry run. *)
Definition prepareTarget (s : Cli.Settings) (disk : FS) : FS + Ending FS :=
  if Cli.dryRun s then inl disk
  else
    match
      (if existsSync disk (Cli.targetPath s) then Some disk
       else mkdirSync disk (Cli.targetPath s))
    with
    | None => inr (Uncaught disk)
    | Some disk1 =>
        if Cli.cleanFirst s then
          match globSync disk1 (pathJoin (Cli.targetPath s) "*.*") false with
          | None => inr (Uncaught disk1)
          | Some filesToRemove => removeAll disk1 filesToRemove
          end
        else inl disk1
    end.

(** [loadGitignorePatterns]: [None] when reading the file throws. *)
Definition loadGitignorePatterns (disk : FS) : option (list string) :=
  if existsSync disk (resolve ".gitignore") then
    match readFileSync disk (resolve ".gitignore") with
    | Some content => Some (Config.gitignorePatterns content)
    | None => None
    end
  else Some [].

(** The script from the parsed settings on (lines 290-386). *)
Definition execute (s : Cli.Settings) (disk : FS) : Ending FS :=
  if (0 <? length (Cli.unknownArgs s))%nat then Exit 1 disk
  else if negb (existsSync disk FLATTEN_FILE_PATH) then Exit 1 disk
  else
    match prepareTarget s disk with
    | inr ending => ending
    | inl disk1 =>
        match readFileSync disk1 FLATTEN_FILE_PATH with
        | None => Uncaught disk1
        | Some configText =>
            let flattenList := Config.flattenList configText in
            if (length flattenList =? 0)%nat then Exit 1 disk1
            else
              match
                (if Cli.respectGitignore s then loadGitignorePatterns disk1 else Some [])
              with
              | None => Uncaught disk1
              | Some gitignorePatterns =>
                  let denyRules :=
                    Config.withGitignore (Cli.respectGitignore s)
                      (Config.denyRulesOf flattenList) gitignorePatterns in
                  let copyRules := Config.copyRulesOf flattenList in
                  let '(st, totalFilesCopied, _) :=
                    run (optionsOf s) denyRules copyRules (initialState disk1) in
                  if runThrows (optionsOf s) denyRules copyRules (initialState disk1)
                  then Uncaught (fs st)
                  else Completed st totalFilesCopied
              end
        end
    end.

(** The script on its arguments. *)
Definition main (args : list string) (disk : FS) : Ending FS :=
  match
    Cli.processArgs hostPlatform defaultTargetPath args
      (Cli.initialSettings defaultTargetPath)
  with
  | Cli.InitRequested =>
      match initializeFlattenFile disk with
      | None => Exit 1 disk
      | Some disk1 => Exit 0 disk1
      end
  | Cli.HelpRequested => Exit 0 disk
  | Cli.MaxSizeMissing => Exit 1 disk
  | Cli.MaxSizeInvalid _ => Exit 1 disk
  | Cli.Parsed s => execute s disk
  end.

End Script.

End Program.

(** ** A small system for concrete runs of the script

    A disk maps paths to the text of files and lists its directories; the
    size of a file is the length of its text.  Patterns are read as on the
    small host of the engine. *)

Module Box.

Record Disk : Type := {
  files : list (string * string);
  directories : list string
}.

Fixpoint textOf (fl : list (string * string)) (path : string) : option string :=
  match fl with
  | [] => None
  | (name, text) :: rest => if String.eqb name path then Some text else textOf rest path
  end.

Definition present (d : Disk) (path : string) : bool :=
  match textOf (files d) path with
  | Some _ => true
  | None => JS.includes (directories d) path
  end.

Definition glob (d : Disk) (pattern : string) (follow : bool) : option (list string) :=
  if Toy.tooLong pattern then None
  else if String.eqb pattern "**" then Some (map fst (files d))
  else match textOf (files d) pattern with
       | Some _ => Some [pattern]
       | None => Some []
       end.

Definition matches (file pattern : string) : option bool :=
  if Toy.tooLong pattern then None
  else Some (String.eqb pattern "**" || String.eqb file pattern).

Definition put (d : Disk) (path text : string) : Disk :=
  {| files := (path, text) :: filter (fun entry => negb (String.eqb (fst entry) path)) (files d);
     directories := directories d |}.

Definition copy (d : Disk) (source target : string) : Disk * bool :=
  match textOf (files d) source with
  | Some text => (put d target text, true)
  | None => (d, false)
  end.

Definition remove (d : Disk) (path : string) : Disk * bool :=
  match textOf (files d) path with
  | Some _ =>
      ({| files := filter (fun entry => negb (String.eqb (fst entry) path)) (files d);
          directories := directories d |}, true)
  | None => (d, false)
  end.

#[export] Instance host : Host Disk := {
  globSync := glob;
  minimatch := matches;
  statSync := fun d path => option_map (fun text => Z.of_nat (String.length text))
                              (textOf (files d) path);
  copyFileSync := copy;
  pathJoin := fun dir name => dir ++ name;
  hostPlatform := posix
}.

#[export] Instance system : SystemHost Disk := {
  engineHost := host;
  existsSync := present;
  mkdirSync := fun d path =>
    Some {| files := files d; directories := path :: directories d |};
  rmSync := remove;
  readFileSync := fun d path => textOf (files d) path;
  writeFileSync := fun d path text => (put d path text, true);
  resolve := fun path => path
}.

(** A project with a rule file that names [a.txt]. *)
Definition project : Disk :=
  {| files := [(".flatten", "a.txt"); ("a.txt", "hello")]; directories := [] |}.

(** The same project with an empty rule file. *)
Definition emptyRules : Disk :=
  {| files := [(".flatten", "# nothing"); ("a.txt", "hello")]; directories := [] |}.

End Box.

(** * Properties *)

(** ** Lists *)

Module ListFacts.

Lemma Forall_filter {A : Type} (P : A -> Prop) (f : A -> bool) (l : list A) :
  Forall P l -> Forall P (filter f l).
Proof.
  induction 1 as [|x l Hx Hl IH]; simpl; [constructor|].
  destruct (f x); [constructor|]; assumption.
Qed.

Lemma filter_filter {A : Type} (f g : A -> bool) (l : list A) :
  filter g (filter f l) = filter (fun x => f x && g x) l.
Proof.
  induction l as [|x l IH]; simpl; [reflexivity|].
  destruct (f x); simpl; [destruct (g x)|]; now rewrite IH.
Qed.


Lemma filter_map {A B : Type} (f : B -> bool) (g : A -> B) (l : list A) :
  filter f (map g l) = map g (filter (fun x => f (g x)) l).
Proof.
  induction l as [|x l IH]; simpl; [reflexivity|].
  destruct (f (g x)); simpl; now rewrite IH.
Qed.

Lemma fold_left_pointwise {A B : Type} (f g : A -> B -> A) (l : list B) (a : A) :
  (forall x y, f x y = g x y) -> fold_left f l a = fold_left g l a.
Proof.
  intros H. revert a. induction l as [|y l IH]; intros a; simpl; [reflexivity|].
  now rewrite H, IH.
Qed.

Lemma append_nil_r (s : string) : s ++ EmptyString = s.
Proof. induction s as [|c s IH]; simpl; [reflexivity | now rewrite IH]. Qed.

Lemma list_ascii_append (s t : string) :
  list_ascii_of_string (s ++ t)
  = (list_ascii_of_string s ++ list_ascii_of_string t)%list.
Proof. induction s as [|c s IH]; simpl; [reflexivity | now rewrite IH]. Qed.

End ListFacts.

(** ** Path transformer *)

Example transform_button :
  flattenedFileName posix "src/components/Button.tsx" = "src_components_Button.tsx".
Proof. reflexivity. Qed.

Example transform_nav_bar :
  flattenedFileName posix "lib/nav_bar.js" = "lib_nav__bar.js".
Proof. reflexivity. Qed.

Example transform_index :
  flattenedFileName posix "index.ts" = "index.ts".
Proof. reflexivity. Qed.

Example transform_backslash :
  flattenedFileName win32 "src\nav_bar.js" = "src_nav__bar.js".
Proof. reflexivity. Qed.

Module TransformFacts.

Import JS ListFacts.

Lemma split_not_nil (sep : ascii) (s : string) : split sep s <> [].
Proof.
  destruct s as [|c r]; simpl; [discriminate|].
  destruct (Ascii.eqb c sep); [discriminate|].
  destruct (split sep r); discriminate.
Qed.


Lemma split_no_sep (sep : ascii) (s : string) :
  Forall (fun component => hasChar sep component = false) (split sep s).
Proof.
  induction s as [|c r IH]; simpl.
  - repeat constructor.
  - destruct (Ascii.eqb c sep) eqn:E.
    + constructor; [reflexivity | exact IH].
    + destruct (split sep r) as [|h t]; inversion IH; subst;
        constructor; simpl; try rewrite E; auto.
Qed.


(** C1.  The transform is not injective on paths with different component
    sequences: on POSIX the paths [a_/b] and [a/_b] have the component
    sequences [a_; b] and [a; _b], and both are renamed to [a___b]. *)
Theorem transform_collision_on_underscores :
  specComponents posix "a_/b" = ["a_"; "b"]
  /\ specComponents posix "a/_b" = ["a"; "_b"]
  /\ flattenedFileName posix "a_/b" = "a___b"
  /\ flattenedFileName posix "a/_b" = "a___b".
Proof. repeat split; reflexivity. Qed.

(** C2.  A [node_modules] segment is not dropped: the paths
    [node_modules/a] and [a] have the same component sequence once
    [node_modules] is dropped, and the transform renames them to
    [node__modules_a] and [a]. *)
Theorem node_modules_segment_is_kept :
  specComponents posix "node_modules/a" = specComponents posix "a"
  /\ flattenedFileName posix "node_modules/a" = "node__modules_a"
  /\ flattenedFileName posix "a" = "a".
Proof. repeat split; reflexivity. Qed.

Lemma split_chars (sep c : ascii) (s : string) :
  hasChar c s = false ->
  Forall (fun line => hasChar c line = false) (split sep s).
Proof.
  induction s as [|d s IH]; simpl.
  - intros _. repeat constructor.
  - intros H. apply orb_false_iff in H. destruct H as [Hd Hs].
    specialize (IH Hs). destruct (Ascii.eqb d sep).
    + constructor; [reflexivity | exact IH].
    + destruct (split sep s) as [|h t]; inversion IH; subst;
        constructor; simpl; try rewrite Hd; auto.
Qed.






(** The condition on the path is needed: a forward slash in a path on
    Windows, which [globSync] does not return, would be kept. *)
Example forward_slash_kept_on_win32 :
  flattenedFileName win32 "src/a.ts" = "src/a.ts"
  /\ specFlatName win32 "src/a.ts" = "src_a.ts".
Proof. split; reflexivity. Qed.

(** *** What the transform preserves *)

Lemma escape_cons (c : ascii) (s : string) :
  escape (String c s)
  = if Ascii.eqb c "_" then String "_" (String "_" (escape s)) else String c (escape s).
Proof. unfold escape. simpl. destruct (Ascii.eqb c "_"); reflexivity. Qed.

Lemma split_escape (sep : ascii) (s : string) :
  sep <> "_"%char ->
  split sep (escape s) = map escape (split sep s).
Proof.
  intros Hsep. induction s as [|c s IH]; [reflexivity|].
  rewrite escape_cons.
  destruct (Ascii.eqb c "_") eqn:Ec.
  - apply Ascii.eqb_eq in Ec. subst c.
    assert (E : Ascii.eqb "_" sep = false)
      by (apply Ascii.eqb_neq; intros H; apply Hsep; now rewrite H).
    cbn [split]. rewrite E, IH.
    destruct (split sep s) as [|h t] eqn:Es; [now destruct (split_not_nil sep s)|].
    cbn [map]. now rewrite escape_cons.
  - cbn [split]. destruct (Ascii.eqb c sep) eqn:Ecs.
    + cbn [map]. now rewrite IH.
    + rewrite IH.
      destruct (split sep s) as [|h t] eqn:Es; [now destruct (split_not_nil sep s)|].
      cbn [map]. now rewrite escape_cons, Ec.
Qed.

Lemma pathSeparator_not_underscore (p : platform) : pathSeparator p <> "_"%char.
Proof. destruct p; discriminate. Qed.

Lemma pairedUnderscores_escape (s : string) : pairedUnderscores (escape s) = true.
Proof.
  induction s as [|c s IH]; [reflexivity|].
  rewrite escape_cons. destruct (Ascii.eqb c "_") eqn:E; simpl.
  - exact IH.
  - now rewrite E.
Qed.

Lemma truthyString_escape (s : string) : truthyString (escape s) = truthyString s.
Proof. destruct s as [|c s]; [reflexivity|]. rewrite escape_cons. now destruct (Ascii.eqb c "_"). Qed.

Lemma escape_is_dot (s : string) :
  String.eqb (escape s) "." = String.eqb s ".".
Proof.
  destruct s as [|c s]; [reflexivity|].
  rewrite escape_cons. destruct (Ascii.eqb c "_") eqn:E.
  - apply Ascii.eqb_eq in E. subst c. reflexivity.
  - destruct s as [|d s]; [reflexivity|].
    rewrite escape_cons. simpl. destruct (Ascii.eqb c "."); [|reflexivity].
    now destruct (Ascii.eqb d "_").
Qed.

Lemma escape_unwanted (s : string) :
  includes unwanted (escape s) = String.eqb s ".".
Proof.
  unfold includes, unwanted. simpl. rewrite orb_false_r.
  rewrite (String.eqb_sym (escape s) "."), <- escape_is_dot.
  rewrite (String.eqb_sym (escape s) ".").
  destruct (String.eqb (escape s) "node_modules") eqn:E; [|reflexivity].
  apply String.eqb_eq in E.
  pose proof (pairedUnderscores_escape s) as H. rewrite E in H. discriminate.
Qed.

Lemma flattenedFileName_kept (p : platform) (sourceFile : string) :
  flattenedFileName p sourceFile
  = join "_" (map escape (keptComponents p sourceFile)).
Proof.
  unfold flattenedFileName, keptComponents. fold (escape sourceFile).
  rewrite (split_escape _ _ (pathSeparator_not_underscore p)).
  rewrite !filter_map. f_equal. f_equal.
  rewrite (filter_ext _ truthyString truthyString_escape).
  apply filter_ext. intros c. now rewrite escape_unwanted.
Qed.

(** The flat name is the underscore-join of the escaped components of the
    raw path, of which only the empty ones and [.] are dropped: the entry
    [node_modules] of the filter never matches an escaped component. *)
Theorem flat_name_of_components (p : platform) (sourceFile : string) :
  flattenedFileName p sourceFile
  = join "_" (map escape (keptComponents p sourceFile)).
Proof.
  apply flattenedFileName_kept.
Qed.

(** Paths that differ only in empty and [.] components get the same flat
    name. *)
Theorem dot_segments_collapse (p : platform) (P1 P2 : string) :
  keptComponents p P1 = keptComponents p P2 ->
  flattenedFileName p P1 = flattenedFileName p P2.
Proof. intros H. now rewrite !flattenedFileName_kept, H. Qed.

(** The paths [./src/./a.ts] and [src//a.ts] get one flat name. *)
Lemma dot_segments_collapse_witness :
  flattenedFileName posix "./src/./a.ts" = flattenedFileName posix "src//a.ts".
Proof. apply dot_segments_collapse. reflexivity. Defined.


Lemma specComponents_of_kept (p : platform) (sourceFile : string) :
  specComponents p sourceFile
  = filter (fun component => negb (String.eqb component "node_modules"))
      (keptComponents p sourceFile).
Proof.
  unfold specComponents, keptComponents.
  rewrite (filter_filter (fun component => negb (String.eqb component "."))).
  apply filter_ext. intros c. unfold includes, unwanted. simpl.
  rewrite orb_false_r, negb_orb. apply andb_comm.
Qed.

(** An escaped string followed by a separator tail can be read back in
    one way only. *)
Lemma escape_tail_unique (t1 : string) :
  forall t2 r1 r2,
    separatorTail r1 -> separatorTail r2 ->
    escape t1 ++ r1 = escape t2 ++ r2 ->
    t1 = t2 /\ r1 = r2.
Proof.
  induction t1 as [|x t1 IH]; intros t2 r1 r2 H1 H2 E.
  - destruct t2 as [|y t2]; [now split|].
    exfalso. rewrite escape_cons in E. simpl in E.
    destruct (Ascii.eqb y "_") eqn:Ey.
    + subst r1. simpl in H1. now destruct H1 as [_ H1].
    + subst r1. simpl in H1. apply Ascii.eqb_neq in Ey.
      destruct (escape t2 ++ r2); [exact H1 | now destruct H1 as [H1 _]].
  - rewrite escape_cons in E. destruct t2 as [|y t2].
    + exfalso. simpl in E. destruct (Ascii.eqb x "_") eqn:Ex.
      * subst r2. simpl in H2. now destruct H2 as [_ H2].
      * subst r2. simpl in H2. apply Ascii.eqb_neq in Ex.
        destruct (escape t1 ++ r1); [exact H2 | now destruct H2 as [H2 _]].
    + rewrite escape_cons in E.
      destruct (Ascii.eqb x "_") eqn:Ex, (Ascii.eqb y "_") eqn:Ey; simpl in E.
      * apply Ascii.eqb_eq in Ex, Ey. subst x y.
        injection E as E. destruct (IH t2 r1 r2 H1 H2 E) as [-> ->]. now split.
      * exfalso. injection E as E _. subst y. discriminate.
      * exfalso. injection E as E _. subst x. discriminate.
      * injection E as -> E. destruct (IH t2 r1 r2 H1 H2 E) as [-> ->]. now split.
Qed.

Lemma join_cons (sep x : string) (l : list string) :
  join sep (x :: l)
  = x ++ match l with [] => EmptyString | _ :: _ => sep ++ join sep l end.
Proof.
  unfold join. destruct l as [|y l]; simpl; [|reflexivity].
  induction x as [|c x IH]; simpl; [reflexivity | now rewrite <- IH].
Qed.

Lemma separatorTail_join (l : list string) :
  Forall plainStart l ->
  separatorTail
    match l with [] => EmptyString | _ :: _ => "_" ++ join "_" (map escape l) end.
Proof.
  intros H. destruct H as [|d l [Hd1 Hd2] _]; [exact I|].
  cbn [map]. rewrite join_cons.
  destruct d as [|x d]; [discriminate|].
  rewrite escape_cons. simpl in Hd2. rewrite Hd2. simpl.
  split; [reflexivity | now apply Ascii.eqb_neq].
Qed.

Lemma join_escape_injective (l1 : list string) :
  forall l2,
    Forall plainStart l1 -> Forall plainStart l2 ->
    join "_" (map escape l1) = join "_" (map escape l2) ->
    l1 = l2.
Proof.
  induction l1 as [|c1 l1 IH]; intros l2 H1 H2 E.
  - destruct l2 as [|c2 l2]; [reflexivity|]. exfalso.
    inversion H2 as [|? ? [Hc _] _]; subst.
    cbn [map] in E. rewrite join_cons in E.
    destruct c2 as [|x c2]; [discriminate|].
    rewrite escape_cons in E. destruct (Ascii.eqb x "_"); discriminate.
  - destruct l2 as [|c2 l2].
    + exfalso. inversion H1 as [|? ? [Hc _] _]; subst.
      cbn [map] in E. rewrite join_cons in E.
      destruct c1 as [|x c1]; [discriminate|].
      rewrite escape_cons in E. destruct (Ascii.eqb x "_"); discriminate.
    + inversion H1 as [|? ? _ H1']; inversion H2 as [|? ? _ H2']; subst.
      cbn [map] in E. rewrite !join_cons in E.
      pose proof (separatorTail_join l1 H1') as T1.
      pose proof (separatorTail_join l2 H2') as T2.
      destruct l1 as [|d1 l1], l2 as [|d2 l2]; cbn [map] in *;
        destruct (escape_tail_unique _ _ _ _ T1 T2 E) as [-> Et];
        try reflexivity; try discriminate.
      f_equal. apply IH; auto. simpl in Et. now injection Et.
Qed.

Lemma keptComponents_truthy (p : platform) (sourceFile : string) :
  Forall (fun component => truthyString component = true) (keptComponents p sourceFile).
Proof.
  unfold keptComponents. apply Forall_filter.
  apply Forall_forall. intros c Hc. now apply filter_In in Hc.
Qed.

(** Among paths none of whose components starts with an underscore, the
    transform is injective on component sequences. *)
Theorem transform_injective_without_leading_underscore (p : platform) (P1 P2 : string) :
  Forall (fun component => startsWithUnderscore component = false) (keptComponents p P1) ->
  Forall (fun component => startsWithUnderscore component = false) (keptComponents p P2) ->
  specComponents p P1 <> specComponents p P2 ->
  flattenedFileName p P1 <> flattenedFileName p P2.
Proof.
  intros H1 H2 Hdiff E. apply Hdiff.
  rewrite !flattenedFileName_kept in E.
  rewrite !specComponents_of_kept. f_equal.
  apply join_escape_injective; [| |exact E].
  - pose proof (keptComponents_truthy p P1) as T.
    rewrite Forall_forall in *. intros c Hc. split; auto.
  - pose proof (keptComponents_truthy p P2) as T.
    rewrite Forall_forall in *. intros c Hc. split; auto.
Qed.

(** The paths [src/a_b.ts] and [src/a/b.ts] get different flat names. *)
Lemma transform_injective_witness :
  flattenedFileName posix "src/a_b.ts" <> flattenedFileName posix "src/a/b.ts".
Proof.
  apply transform_injective_without_leading_underscore.
  - repeat constructor.
  - repeat constructor.
  - discriminate.
Defined.

End TransformFacts.

(** ** Size-limit argument *)

Module SizeArgFacts.

Import SizeArg ListFacts.

Lemma spanDigits_spec (s : string) :
  s = fst (spanDigits s) ++ snd (spanDigits s)
  /\ Forall (fun c => isDigit c = true) (list_ascii_of_string (fst (spanDigits s)))
  /\ startsWithNonDigit (snd (spanDigits s)).
Proof.
  induction s as [|c r IH]; simpl.
  - repeat split; constructor.
  - destruct (isDigit c) eqn:E.
    + destruct (spanDigits r) as [ds rest]; simpl in *.
      destruct IH as (Hs & Hd & Hr). repeat split.
      * now rewrite Hs at 1.
      * now constructor.
      * exact Hr.
    + simpl. repeat split; [constructor | exact E].
Qed.

Lemma spanDigits_app (ds rest : string) :
  Forall (fun c => isDigit c = true) (list_ascii_of_string ds) ->
  startsWithNonDigit rest ->
  spanDigits (ds ++ rest) = (ds, rest).
Proof.
  intros Hd Hr. induction ds as [|c ds IH]; simpl.
  - destruct rest as [|c r]; simpl in *; [reflexivity | now rewrite Hr].
  - inversion Hd as [|? ? Hc Hds]; subst. rewrite Hc, IH; auto.
Qed.

Lemma upperChar_cases (c u : ascii) :
  upperChar c = u ->
  In u ["B"; "K"; "M"; "G"]%char ->
  c = u \/ c = ascii_of_nat (nat_of_ascii u + 32).
Proof.
  intros H Hin.
  destruct c as [[] [] [] [] [] [] [] []];
    vm_compute in H; subst u; simpl in Hin;
    try (left; reflexivity);
    try (right; reflexivity);
    exfalso; intuition discriminate.
Qed.

Lemma unitAtEnd_spells (rest : string) :
  unitAtEnd rest = true ->
  exists u, spells u rest
            /\ units (toUpperCase rest) = Some (1024 ^ exponent u)%Z.
Proof.
  unfold unitAtEnd, JS.includes. simpl. rewrite !orb_true_iff, !String.eqb_eq.
  intros [H|[H|[H|[H|H]]]]; [| | | |discriminate].
  - exists unitB. rewrite H. split; [|reflexivity].
    destruct rest as [|b [|? ?]]; simpl in H; try discriminate.
    injection H as H. exists b. split; [reflexivity|].
    destruct (upperChar_cases b "B" H) as [->| ->]; simpl; auto; [left|right]; reflexivity.
  - exists unitKB. rewrite H. split; [|reflexivity].
    destruct rest as [|k [|b [|? ?]]]; simpl in H; try discriminate.
    injection H as Hk Hb. exists k, b. split; [reflexivity|].
    destruct (upperChar_cases k "K" Hk) as [->| ->]; simpl; auto;
      destruct (upperChar_cases b "B" Hb) as [->| ->]; simpl; auto;
      split; (left; reflexivity) || (right; reflexivity).
  - exists unitMB. rewrite H. split; [|reflexivity].
    destruct rest as [|k [|b [|? ?]]]; simpl in H; try discriminate.
    injection H as Hk Hb. exists k, b. split; [reflexivity|].
    destruct (upperChar_cases k "M" Hk) as [->| ->]; simpl; auto;
      destruct (upperChar_cases b "B" Hb) as [->| ->]; simpl; auto;
      split; (left; reflexivity) || (right; reflexivity).
  - exists unitGB. rewrite H. split; [|reflexivity].
    destruct rest as [|k [|b [|? ?]]]; simpl in H; try discriminate.
    injection H as Hk Hb. exists k, b. split; [reflexivity|].
    destruct (upperChar_cases k "G" Hk) as [->| ->]; simpl; auto;
      destruct (upperChar_cases b "B" Hb) as [->| ->]; simpl; auto;
      split; (left; reflexivity) || (right; reflexivity).
Qed.

Lemma spells_unitAtEnd (u : sizeUnit) (text : string) :
  spells u text ->
  unitAtEnd text = true
  /\ units (toUpperCase text) = Some (1024 ^ exponent u)%Z
  /\ startsWithNonDigit text
  /\ (forall r, text <> String "."%char r).
Proof.
  unfold eitherCase.
  destruct u; simpl.
  - intros (b & -> & [->| ->]); repeat split; try reflexivity; discriminate.
  - intros (k & b & -> & [->| ->] & [->| ->]); repeat split; try reflexivity; discriminate.
  - intros (k & b & -> & [->| ->] & [->| ->]); repeat split; try reflexivity; discriminate.
  - intros (k & b & -> & [->| ->] & [->| ->]); repeat split; try reflexivity; discriminate.
Qed.


Lemma append_assoc (a b c : string) : (a ++ b) ++ c = a ++ (b ++ c).
Proof. induction a as [|x a IH]; simpl; [reflexivity | now rewrite IH]. Qed.

Lemma digits_span (ds rest : string) :
  digits ds -> startsWithNonDigit rest -> spanDigits (ds ++ rest) = (ds, rest).
Proof. intros [_ Hd] Hr. now apply spanDigits_app. Qed.

(** What the regular expression captures is the number and the unit of the
    format, and the two together are the whole string. *)
Lemma sizeMatch_sound (s size unit : string) :
  sizeMatch s = Some (size, unit) ->
  s = size ++ unit /\ decimalNumber size /\ unitAtEnd unit = true.
Proof.
  unfold sizeMatch.
  destruct (spanDigits_spec s) as (Hs & Hd & Hr).
  destruct (spanDigits s) as [intPart afterInt]; simpl in *.
  destruct intPart as [|d ds]; [discriminate|].
  assert (Hint : digits (String d ds)) by (split; [discriminate | exact Hd]).
  assert (Hplain : (if unitAtEnd afterInt then Some (String d ds, afterInt) else None)
                   = Some (size, unit) ->
                   s = size ++ unit /\ decimalNumber size /\ unitAtEnd unit = true).
  { destruct (unitAtEnd afterInt) eqn:E; [|discriminate].
    intros H; injection H as <- <-. repeat split; auto. now constructor. }
  destruct afterInt as [|c afterDot]; [exact Hplain|].
  destruct (Ascii.eqb c ".") eqn:Ec.
  - apply Ascii.eqb_eq in Ec. subst c.
    destruct (spanDigits_spec afterDot) as (Hs' & Hd' & Hr').
    destruct (spanDigits afterDot) as [fracPart afterFrac]; simpl in *.
    destruct fracPart as [|f fs]; [exact Hplain|].
    destruct (unitAtEnd afterFrac) eqn:E; [|discriminate].
    intros H; injection H as <- <-. repeat split; auto.
    + rewrite Hs, Hs'. simpl. f_equal. rewrite append_assoc. reflexivity.
    + change (decimalNumber (String d ds ++ String "."%char (String f fs))).
      constructor; [exact Hint|]. split; [discriminate | exact Hd'].
  - assert (Hne : c <> "."%char) by (intros ->; discriminate).
    destruct c as [[] [] [] [] [] [] [] []]; try exact Hplain.
    now contradiction Hne.
Qed.

(** Every string of the format is matched, with the number and the unit
    as captures. *)
Lemma sizeMatch_complete (s num : string) (u : sizeUnit) (unitText : string) :
  s = num ++ unitText -> decimalNumber num -> spells u unitText ->
  sizeMatch s = Some (num, unitText).
Proof.
  intros -> Hnum Hu.
  destruct (spells_unitAtEnd u unitText Hu) as (Hend & _ & Hnd & Hdot).
  unfold sizeMatch. destruct Hnum as [ds Hds | ds fs Hds Hfs].
  - rewrite (digits_span ds unitText Hds Hnd).
    destruct ds as [|d ds]; [now destruct Hds|].
    destruct unitText as [|c r]; [discriminate|].
    assert (Hc : c <> "."%char) by (intros ->; now apply (Hdot r)).
    destruct c as [[] [] [] [] [] [] [] []];
      try (cbv beta iota zeta; rewrite Hend; reflexivity).
    now contradiction Hc.
  - rewrite append_assoc. simpl.
    rewrite (digits_span ds (String "."%char (fs ++ unitText)) Hds eq_refl).
    destruct ds as [|d ds]; [now destruct Hds|].
    rewrite (digits_span fs unitText Hfs Hnd).
    destruct fs as [|f fs]; [now destruct Hfs|].
    now rewrite Hend.
Qed.

(** *** Rounding to a double *)

Lemma two_pow_pos (k : Z) : 0 < 2 ^ k.
Proof. now apply Qpower_0_lt. Qed.

Lemma two_pow_nonzero (k : Z) : ~ 2 ^ k == 0.
Proof.
  intros H. pose proof (two_pow_pos k) as Hp. rewrite H in Hp.
  now apply Qlt_irrefl in Hp.
Qed.

Lemma two_pow_Z (k : Z) : (0 <= k)%Z -> inject_Z (2 ^ k) == 2 ^ k.
Proof. intros H. now rewrite Zpower_Qpower. Qed.

Lemma Q_as_quotient (q : Q) : q == inject_Z (Qnum q) / inject_Z (Z.pos (Qden q)).
Proof. destruct q as [a b]. apply Qmake_Qdiv. Qed.

(** [log2floor] does not overshoot. *)
Lemma log2floor_le (q : Q) : 0 < q -> 2 ^ log2floor q <= q.
Proof.
  intros Hq. unfold log2floor.
  set (a := Z.log2 (Qnum q)). set (b := Z.log2 (Z.pos (Qden q))).
  destruct (Qle_bool (2 ^ (a - b)) q) eqn:E; [now apply Qle_bool_iff|].
  assert (Hnum : (0 < Qnum q)%Z).
  { unfold Qlt in Hq. simpl in Hq. lia. }
  destruct (Z.log2_spec (Qnum q) Hnum) as [Ha _]. fold a in Ha.
  destruct (Z.log2_spec (Z.pos (Qden q)) eq_refl) as [_ Hb]. fold b in Hb.
  assert (Ha0 : (0 <= a)%Z) by apply Z.log2_nonneg.
  assert (Hb0 : (0 <= b)%Z) by apply Z.log2_nonneg.
  apply Qle_trans with (inject_Z (Qnum q) / inject_Z (Z.pos (Qden q)));
    [|rewrite <- Q_as_quotient; apply Qle_refl].
  apply Qle_shift_div_l; [reflexivity|].
  apply Qle_trans with (2 ^ (a - b - 1) * 2 ^ (b + 1)).
  - apply Qmult_le_l; [apply two_pow_pos|].
    rewrite <- two_pow_Z by lia. rewrite <- Zle_Qle. lia.
  - rewrite <- Qpower_plus by discriminate.
    replace (a - b - 1 + (b + 1))%Z with a by lia.
    rewrite <- two_pow_Z by lia. rewrite <- Zle_Qle. exact Ha.
Qed.

Lemma roundHalfEven_whole (x : Q) (m : Z) : x == inject_Z m -> roundHalfEven x = m.
Proof.
  intros H. unfold roundHalfEven.
  assert (Hf : Qfloor x = m) by (rewrite H; apply Qfloor_Z).
  rewrite Hf.
  assert (Hlt : x - inject_Z m < 1 # 2).
  { rewrite H. unfold Qminus. rewrite Qplus_opp_r. reflexivity. }
  destruct (Qcompare_spec (x - inject_Z m) (1 # 2)) as [He|_|Hgt]; [|reflexivity|].
  - rewrite He in Hlt. now apply Qlt_irrefl in Hlt.
  - exfalso. apply (Qlt_irrefl (1 # 2)). now apply Qlt_trans with (x - inject_Z m).
Qed.

(** A whole number below [2^53], divided by a power of two, is a double:
    rounding leaves it as it is. *)
Lemma roundToDouble_dyadic (q : Q) (n j : Z) :
  (0 <= n < 2 ^ 53)%Z -> (0 <= j <= 1074)%Z ->
  q == inject_Z n / 2 ^ j ->
  exists d, roundToDouble q = Finite d /\ d == q.
Proof.
  intros [Hn0 Hn1] [Hj0 Hj1] Hq. unfold roundToDouble.
  destruct (Qle_bool q 0) eqn:E.
  - exists 0. split; [reflexivity|].
    apply Qle_bool_iff in E. apply Qle_antisym; [|exact E].
    rewrite Hq. apply Qle_shift_div_l; [apply two_pow_pos|].
    rewrite Qmult_0_l. now rewrite <- (Zle_Qle 0).
  - assert (Hpos : 0 < q).
    { apply Qnot_le_lt. intros H. apply Qle_bool_iff in H. congruence. }
    cbv zeta. set (e := log2floor q). set (s := Z.max (e - 52) (-1074)).
    assert (Hupper : q < 2 ^ (53 - j)).
    { rewrite Hq. rewrite Qpower_minus by discriminate.
      unfold Qdiv. apply Qmult_lt_compat_r.
      - apply Qinv_lt_0_compat, two_pow_pos.
      - rewrite <- two_pow_Z by lia. now rewrite <- Zlt_Qlt. }
    assert (He : (e < 53 - j)%Z).
    { apply (Qpower_lt_compat_l_inv 2); [|reflexivity].
      apply Qle_lt_trans with q; [now apply log2floor_le | exact Hupper]. }
    assert (Hs : (s <= - j)%Z) by (unfold s; lia).
    set (M := (n * 2 ^ (- j - s))%Z).
    assert (HM : q / 2 ^ s == inject_Z M).
    { unfold M. rewrite inject_Z_mult, two_pow_Z by lia.
      rewrite Hq. replace (- j - s)%Z with (- (j + s))%Z by lia.
      rewrite Qpower_opp, Qpower_plus by discriminate.
      field. split; apply two_pow_nonzero. }
    rewrite (roundHalfEven_whole _ M HM).
    assert (Hd : inject_Z M * 2 ^ s == q).
    { rewrite <- HM. field. apply two_pow_nonzero. }
    assert (Hfin : Qle_bool (2 ^ 1024) (inject_Z M * 2 ^ s) = false).
    { destruct (Qle_bool (2 ^ 1024) (inject_Z M * 2 ^ s)) eqn:E'; [|reflexivity].
      apply Qle_bool_iff in E'. rewrite Hd in E'. exfalso.
      apply (Qlt_irrefl q). apply Qlt_le_trans with (2 ^ (53 - j)); [exact Hupper|].
      apply Qle_trans with (2 ^ 1024); [|exact E'].
      apply Qpower_le_compat_l; [lia | discriminate]. }
    rewrite Hfin. exists (inject_Z M * 2 ^ s). split; [reflexivity | exact Hd].
Qed.



Lemma roundHalfEven_nonneg (x : Q) : 0 <= x -> (0 <= roundHalfEven x)%Z.
Proof.
  intros Hx. unfold roundHalfEven.
  assert (Hf : (0 <= Qfloor x)%Z).
  { change 0%Z with (Qfloor 0). now apply Qfloor_resp_le. }
  destruct (Qcompare _ _); [destruct (Z.even _)| |]; lia.
Qed.

(** Rounding gives a finite value that is not negative, or [Infinity]. *)
Lemma roundToDouble_cases (q : Q) :
  roundToDouble q = Infinity \/ exists d, roundToDouble q = Finite d /\ 0 <= d.
Proof.
  unfold roundToDouble. destruct (Qle_bool q 0) eqn:E.
  - right. exists 0. split; [reflexivity | apply Qle_refl].
  - cbv zeta. destruct (Qle_bool (2 ^ 1024) _); [now left|].
    right. eexists. split; [reflexivity|].
    assert (Hpos : 0 < q).
    { apply Qnot_le_lt. intros H. apply Qle_bool_iff in H. congruence. }
    apply Qmult_le_0_compat; [|apply Qlt_le_weak, two_pow_pos].
    rewrite <- (Zle_Qle 0). apply roundHalfEven_nonneg.
    apply Qle_shift_div_l; [apply two_pow_pos|].
    rewrite Qmult_0_l. now apply Qlt_le_weak.
Qed.

(** *** The value of a numeral *)

Lemma digitsValue_nonneg (ds : string) :
  Forall (fun c => isDigit c = true) (list_ascii_of_string ds) ->
  forall acc, (0 <= acc)%Z -> (0 <= digitsValue acc ds)%Z.
Proof.
  induction ds as [|c ds IH]; cbn [digitsValue list_ascii_of_string];
    intros Hd acc Hacc; [exact Hacc|].
  inversion Hd as [|? ? Hc Hds]; subst. apply IH; [exact Hds|].
  unfold isDigit in Hc. apply andb_true_iff in Hc. destruct Hc as [Hc _].
  apply Nat.leb_le in Hc. lia.
Qed.

Lemma digits_alone (ds : string) : digits ds -> spanDigits ds = (ds, EmptyString).
Proof.
  intros Hds. rewrite <- (append_nil_r ds) at 1. now apply digits_span.
Qed.

(** The value [decimalValue] reads from a number of the format: its
    digits as a whole number, divided by ten for every digit after the
    dot. *)
Lemma decimalValue_number (num : string) :
  decimalNumber num ->
  exists value, decimalValue num = Some value /\ 0 <= value.
Proof.
  intros [ds Hds | ds fs Hds Hfs]; unfold decimalValue.
  - rewrite (digits_alone ds Hds).
    destruct ds as [|d ds]; [now destruct Hds|].
    eexists. split; [reflexivity|].
    rewrite <- (Zle_Qle 0). apply digitsValue_nonneg; [apply Hds | lia].
  - rewrite (digits_span ds (String "."%char fs) Hds eq_refl).
    destruct ds as [|d ds]; [now destruct Hds|].
    rewrite (digits_alone fs Hfs). cbn [fst].
    eexists. split; [reflexivity|].
    apply Qle_shift_div_l.
    + rewrite <- (Zlt_Qlt 0). apply Z.pow_pos_nonneg; lia.
    + rewrite Qmult_0_l. rewrite <- (Zle_Qle 0).
      apply digitsValue_nonneg; [|lia].
      rewrite list_ascii_append. apply Forall_app. split; [apply Hds | apply Hfs].
Qed.

Lemma factor_power_of_two (u : sizeUnit) :
  inject_Z (1024 ^ exponent u) == 2 ^ (10 * exponent u).
Proof. destruct u; reflexivity. Qed.

(** A size whose value in bytes is a whole number below [2^53] is read
    without any rounding. *)
Lemma exact_bytes (value : Q) (u : sizeUnit) (n : Z) :
  0 <= value ->
  value * inject_Z (1024 ^ exponent u) == inject_Z n ->
  (n < 2 ^ 53)%Z ->
  floor (times (roundToDouble value) (1024 ^ exponent u)) = Bytes n.
Proof.
  intros Hv Hn Hlt.
  assert (Hfpos : 0 < inject_Z (1024 ^ exponent u)).
  { rewrite <- (Zlt_Qlt 0). apply Z.pow_pos_nonneg; [lia | destruct u; simpl; lia]. }
  assert (Hn0 : (0 <= n)%Z).
  { rewrite Zle_Qle, <- Hn. apply Qmult_le_0_compat; [exact Hv | now apply Qlt_le_weak]. }
  assert (Hq : value == inject_Z n / 2 ^ (10 * exponent u)).
  { rewrite <- Hn, factor_power_of_two. field. apply two_pow_nonzero. }
  destruct (roundToDouble_dyadic value n (10 * exponent u) (conj Hn0 Hlt)
              ltac:(destruct u; simpl; lia) Hq) as (d & Hd & Hdv).
  rewrite Hd. cbn [times].
  assert (Hq' : d * inject_Z (1024 ^ exponent u) == inject_Z n / 2 ^ 0).
  { rewrite Hdv, Hn. change (2 ^ 0) with 1. field. }
  destruct (roundToDouble_dyadic _ n 0 (conj Hn0 Hlt) ltac:(lia) Hq') as (d' & Hd' & Hdv').
  rewrite Hd'. cbn [floor]. f_equal.
  rewrite Hdv', Hdv, Hn. apply Qfloor_Z.
Qed.

(** What [parseFileSize] returns is a whole number of bytes that is not
    negative, or [Infinity]. *)
Lemma floor_times_cases (q : Q) (factor : Z) :
  (0 <= factor)%Z ->
  floor (times (roundToDouble q) factor) = Infinite
  \/ exists n, floor (times (roundToDouble q) factor) = Bytes n /\ (0 <= n)%Z.
Proof.
  intros Hf.
  destruct (roundToDouble_cases q) as [->|(d & -> & Hd)]; [now left|].
  cbn [times].
  destruct (roundToDouble_cases (d * inject_Z factor)) as [->|(d' & -> & Hd')]; [now left|].
  right. exists (Qfloor d'). split; [reflexivity|].
  change 0%Z with (Qfloor 0). now apply Qfloor_resp_le.
Qed.

(** C9, amended.  [parseFileSize] accepts exactly the strings that are a
    decimal number immediately followed by a spelling, in any case, of the
    unit B, KB, MB or GB, and throws for every other string.  For an
    accepted string with the unit of exponent [n] it reads the number as
    the double nearest to its value, multiplies by [1024^n] in doubles and
    takes the floor: the result is a whole number of bytes that is not
    negative, or [Infinity]; it is [value * 1024^n] whenever that is a
    whole number below [2^53]. *)
Theorem parseFileSize_format (s : string) :
  (forall num u,
      sizeFormat s num u ->
      exists value,
        decimalValue num = Some value
        /\ 0 <= value
        /\ parseFileSize s
           = floor (times (roundToDouble value) (1024 ^ exponent u))
        /\ (forall n : Z,
               value * inject_Z (1024 ^ exponent u) == inject_Z n ->
               (n < 2 ^ 53)%Z ->
               parseFileSize s = Bytes n)
        /\ (parseFileSize s = Infinite
            \/ exists n, parseFileSize s = Bytes n /\ (0 <= n)%Z))
  /\ ((forall num u, ~ sizeFormat s num u) ->
      parseFileSize s
      = Throws ("Invalid file size format: " ++ s
                ++ ". Use format like: 1MB, 500KB, 2GB")).
Proof.
  split.
  - intros num u (unitText & Hs & Hnum & Hu).
    destruct (decimalValue_number num Hnum) as (value & Hval & Hpos).
    assert (Hparse : parseFileSize s
                     = floor (times (roundToDouble value) (1024 ^ exponent u))).
    { unfold parseFileSize.
      rewrite (sizeMatch_complete s num u unitText Hs Hnum Hu).
      destruct (spells_unitAtEnd u unitText Hu) as (_ & Hunits & _).
      rewrite Hunits. unfold parseFloat. now rewrite Hval. }
    exists value. split; [exact Hval|]. split; [exact Hpos|].
    split; [exact Hparse|]. rewrite Hparse. split.
    + intros n Hn Hlt. now apply exact_bytes.
    + apply floor_times_cases. apply Z.pow_nonneg. lia.
  - intros Hno. unfold parseFileSize.
    destruct (sizeMatch s) as [[size unit]|] eqn:E; [|reflexivity].
    exfalso.
    destruct (sizeMatch_sound s size unit E) as (Hs & Hnum & Hend).
    destruct (unitAtEnd_spells unit Hend) as (u & Hu & _).
    apply (Hno size u). now exists unit.
Qed.

(** [parseFileSize] never returns [NaN]: a captured unit is in the table
    and a captured number starts with a digit. *)
Lemma parseFileSize_not_NaN (s : string) : parseFileSize s <> NotANumber.
Proof.
  unfold parseFileSize.
  destruct (sizeMatch s) as [[size unit]|] eqn:E; [|discriminate].
  destruct (sizeMatch_sound s size unit E) as (_ & Hnum & Hend).
  destruct (unitAtEnd_spells unit Hend) as (u & _ & Hunits).
  rewrite Hunits.
  destruct (decimalValue_number size Hnum) as (value & Hval & _).
  unfold parseFloat. rewrite Hval.
  destruct (floor_times_cases value (1024 ^ exponent u)) as [->|(n & -> & _)];
    [apply Z.pow_nonneg; lia | discriminate | discriminate].
Qed.

(** The argument [0B] is a limit of zero bytes. *)
Lemma parseFileSize_zero : parseFileSize "0B" = Bytes 0.
Proof. reflexivity. Qed.

(** A kilobyte is 1024 bytes, and [0.1KB] is 102 bytes. *)
Example parseFileSize_kilobyte :
  parseFileSize "1KB" = Bytes 1024 /\ parseFileSize "0.1kb" = Bytes 102.
Proof. split; reflexivity. Qed.

(** The format is met, for instance, by [1.5MB], which is 1572864
    bytes. *)
Lemma parseFileSize_format_witness :
  sizeFormat "1.5MB" "1.5" unitMB /\ parseFileSize "1.5MB" = Bytes 1572864.
Proof.
  assert (H : sizeFormat "1.5MB" "1.5" unitMB).
  { exists "MB". split; [reflexivity|]. split.
    - apply (dn_decimal "1" "5"); (split; [discriminate | repeat constructor]).
    - exists "M"%char, "B"%char. repeat split; left; reflexivity. }
  split; [exact H|].
  destruct (proj1 (parseFileSize_format "1.5MB") "1.5" unitMB H)
    as (value & Hval & _ & _ & Hexact & _).
  injection Hval as <-. apply Hexact; reflexivity.
Defined.

(** C9, as the claim states it, fails.  The value of the number in
    [0.99999999999999999999B] is below one, so its floor is zero bytes,
    but the nearest double is one and [parseFileSize] returns one byte;
    and for a number of 310 digits it returns [Infinity], not a number of
    bytes. *)
Lemma rounding_precedes_the_floor :
  sizeFormat "0.99999999999999999999B" "0.99999999999999999999" unitB
  /\ decimalValue "0.99999999999999999999"
     = Some (inject_Z 99999999999999999999 / inject_Z (10 ^ 20))
  /\ Qfloor (inject_Z 99999999999999999999 / inject_Z (10 ^ 20)
             * inject_Z (1024 ^ exponent unitB)) = 0%Z
  /\ parseFileSize "0.99999999999999999999B" = Bytes 1
  /\ sizeMatch (hugeNumeral ++ "B") = Some (hugeNumeral, "B")
  /\ parseFileSize (hugeNumeral ++ "B") = Infinite.
Proof.
  split.
  { exists "B". split; [reflexivity|]. split.
    - apply (dn_decimal "0" "99999999999999999999");
        (split; [discriminate | repeat constructor]).
    - exists "B"%char. split; [reflexivity | now left]. }
  repeat split; vm_compute; reflexivity.
Qed.

End SizeArgFacts.

(** ** Rule engine *)

Module EngineFacts.

Import ListFacts.

Section Facts.

Context {FS : Type} {host : Host FS}.

(** *** Exclusion filter *)











(** *** The copy loop *)

Lemma copyLoop_log (opts : Options) (files : list string) :
  forall st n,
    map fst (snd (copyLoop opts st n files)) = files
    /\ reaches opts st (snd (copyLoop opts st n files))
         (fst (fst (copyLoop opts st n files))).
Proof.
  induction files as [|f files IH]; intros st n; simpl.
  - split; [reflexivity | constructor].
  - destruct (processFile opts st f) as [st1 o] eqn:E.
    specialize (IH st1 (if countsAsCopy o then (n + 1)%Z else n)).
    destruct (copyLoop opts st1 _ files) as [[st2 total] log]; simpl in *.
    destruct IH as [IH1 IH2]. split; [now rewrite IH1|].
    econstructor; eauto.
Qed.

(** A rule that returns has listed its candidates, passed them through
    the exclusion filter and processed the files that are left, one after
    the other. *)
Lemma runRule_log (opts : Options) (denyRules : list string) (st st1 : RunState FS)
  (pattern : string) (n : Z) (log : list (string * Outcome)) :
  runRule opts denyRules st pattern = Some (st1, n, log) ->
  exists found,
    globSync (fs st) pattern (followSymlinks opts) = Some found
    /\ applyDenyRules denyRules found = Some (map fst log)
    /\ reaches opts st log st1.
Proof.
  unfold runRule.
  destruct (globSync (fs st) pattern (followSymlinks opts)) as [found|] eqn:Eg;
    [|discriminate].
  destruct (applyDenyRules denyRules found) as [matchingFiles|] eqn:Ef; [|discriminate].
  intros H. exists found. split; [reflexivity|].
  destruct matchingFiles as [|f files].
  - simpl in H. injection H as <- <- <-. split; [exact Ef | constructor].
  - change (length (f :: files) =? 0)%nat with false in H. cbv iota in H.
    assert (H' : copyLoop opts st 0%Z (f :: files) = (st1, n, log)) by congruence.
    destruct (copyLoop_log opts (f :: files) st 0%Z) as [H1 H2].
    rewrite H' in H1, H2. simpl in H1, H2. now rewrite H1.
Qed.


(** *** The rules of a run *)

Lemma fold_thrown (opts : Options) (denyRules copyRules : list string)
  (st : RunState FS) (total : Z) (logs : list (string * list (string * Outcome))) :
  fold_left (runStep opts denyRules) copyRules (st, total, logs, true)
  = (st, total, logs, true).
Proof. induction copyRules as [|r rs IH]; simpl; [reflexivity | exact IH]. Qed.

Lemma fold_from (opts : Options) (denyRules copyRules : list string) :
  forall (st : RunState FS) (total : Z) (logs : list (string * list (string * Outcome))),
    fold_left (runStep opts denyRules) copyRules (st, total, logs, false)
    = (let '(st1, n, logs1, thrown) := runAll opts denyRules copyRules st in
       (st1, (total + n)%Z, (logs ++ logs1)%list, thrown)).
Proof.
  induction copyRules as [|rule copyRules IH]; intros st total logs.
  - simpl. now rewrite Z.add_0_r, app_nil_r.
  - unfold runAll. simpl.
    destruct (runRule opts denyRules st rule) as [[[st1 n] log]|].
    + rewrite (IH st1 (total + n)%Z), (IH st1 (0 + n)%Z).
      destruct (runAll opts denyRules copyRules st1) as [[[st2 m] logs2] thrown].
      rewrite <- app_assoc. simpl. f_equal. f_equal. f_equal. lia.
    + rewrite !fold_thrown. now rewrite Z.add_0_r, app_nil_r.
Qed.

(** The run rule by rule: the rules after the first start in the state
    the first rule left, and none of them is run when it throws. *)
Lemma runAll_cons (opts : Options) (denyRules copyRules : list string) (rule : string)
  (st : RunState FS) :
  runAll opts denyRules (rule :: copyRules) st
  = match runRule opts denyRules st rule with
    | Some (st1, n, log) =>
        let '(st2, m, logs, thrown) := runAll opts denyRules copyRules st1 in
        (st2, (n + m)%Z, (rule, log) :: logs, thrown)
    | None => (st, 0%Z, [], true)
    end.
Proof.
  unfold runAll at 1. simpl.
  destruct (runRule opts denyRules st rule) as [[[st1 n] log]|].
  - now rewrite fold_from.
  - apply fold_thrown.
Qed.

Lemma reaches_app (opts : Options) (st st1 st2 : RunState FS)
  (log1 log2 : list (string * Outcome)) :
  reaches opts st log1 st1 -> reaches opts st1 log2 st2 ->
  reaches opts st (log1 ++ log2)%list st2.
Proof.
  induction 1 as [|st f st' o log st1 Hp _ IH]; intros H2; simpl; [exact H2|].
  econstructor; eauto.
Qed.

(** The paths of a run are processed one after the other, across the
    rules, each in the state its predecessors left. *)
Lemma run_reaches (opts : Options) (denyRules copyRules : list string) (st : RunState FS) :
  reaches opts st (concat (map snd (snd (run opts denyRules copyRules st))))
    (fst (fst (run opts denyRules copyRules st))).
Proof.
  unfold run. revert st.
  induction copyRules as [|rule copyRules IH]; intros st; [constructor|].
  rewrite runAll_cons.
  destruct (runRule opts denyRules st rule) as [[[st1 n] log]|] eqn:E; [|constructor].
  destruct (runRule_log opts denyRules st st1 rule n log E) as (_ & _ & _ & Hr).
  specialize (IH st1).
  destruct (runAll opts denyRules copyRules st1) as [[[st2 m] logs] thrown]; simpl in *.
  eapply reaches_app; eauto.
Qed.




Lemma runStep_ext (opts opts' : Options) (denyRules denyRules' : list string) :
  (forall (st : RunState FS) rule,
      runRule opts' denyRules' st rule = runRule opts denyRules st rule) ->
  forall copyRules (st : RunState FS),
    runAll opts' denyRules' copyRules st = runAll opts denyRules copyRules st.
Proof.
  intros H copyRules st. unfold runAll. apply fold_left_pointwise.
  intros [[[st0 total] logs] thrown] rule. unfold runStep. now rewrite H.
Qed.

Lemma reaches_In (opts : Options) (st st' : RunState FS) (log : list (string * Outcome))
  (f : string) (o : Outcome) :
  reaches opts st log st' -> In (f, o) log ->
  exists st0 st1, processFile opts st0 f = (st1, o).
Proof.
  induction 1 as [|st g st1 o' log st2 Hp _ IH]; simpl; [tauto|].
  intros [H|H]; [injection H as -> ->; eauto | auto].
Qed.

(** *** Claims on the exclusion filter *)

(** *** Claims on the size limit *)

(** C6, amended.  With a size limit [L] other than zero, a file whose size
    is at most [L], the size [L] itself included, is not skipped for its
    size and is processed as without a limit; a file larger than [L] gets
    the outcome skipped-size, is pushed to [skippedFiles], and is neither
    copied nor counted as a copy. *)
Theorem size_limit_boundary (opts : Options) (st : RunState FS) (sourceFile : string)
  (L fileSize : Z) :
  maxFileSize opts = Some L ->
  L <> 0%Z ->
  statSync (fs st) sourceFile = Some fileSize ->
  ((fileSize <= L)%Z ->
     snd (processFile opts st sourceFile) <> SkippedSize
     /\ processFile opts st sourceFile
        = processFile (withMaxFileSize None opts) st sourceFile)
  /\ ((L < fileSize)%Z ->
      processFile opts st sourceFile = (pushSkipped st sourceFile, SkippedSize)
      /\ In sourceFile (skippedFiles (fst (processFile opts st sourceFile)))
      /\ fs (fst (processFile opts st sourceFile)) = fs st
      /\ copiedFiles (fst (processFile opts st sourceFile)) = copiedFiles st
      /\ totalBytes (fst (processFile opts st sourceFile)) = totalBytes st
      /\ countsAsCopy (snd (processFile opts st sourceFile)) = false).
Proof.
  intros HL HL0 Hstat. unfold processFile. rewrite Hstat, HL. simpl.
  apply Z.eqb_neq in HL0. rewrite HL0. simpl.
  split; intros Hsize.
  - assert (E : (L <? fileSize)%Z = false) by (apply Z.ltb_ge; lia).
    rewrite E. split; [|reflexivity].
    unfold targetFilePath. simpl.
    destruct (JS.includes _ _); [discriminate|].
    destruct (dryRun opts); [discriminate|].
    destruct (copyFileSync _ _ _) as [disk []]; discriminate.
  - assert (E : (L <? fileSize)%Z = true) by (apply Z.ltb_lt; lia).
    rewrite E. simpl. repeat split. apply in_or_app. right. now left.
Qed.

(** C10.  A size limit of zero bytes is no limit: no size exceeds it, a
    file is processed as without a limit, a whole run is the run without a
    limit, and no file of the run gets the outcome skipped-size. *)
Theorem zero_limit_disables_size_check (opts : Options) (denyRules copyRules : list string)
  (st : RunState FS) :
  (forall fileSize, exceedsLimit (Some 0%Z) fileSize = false)
  /\ (forall st0 sourceFile,
         processFile (withMaxFileSize (Some 0%Z) opts) st0 sourceFile
         = processFile (withMaxFileSize None opts) st0 sourceFile)
  /\ run (withMaxFileSize (Some 0%Z) opts) denyRules copyRules st
     = run (withMaxFileSize None opts) denyRules copyRules st
  /\ (forall rule log sourceFile o,
         In (rule, log) (snd (run (withMaxFileSize (Some 0%Z) opts) denyRules copyRules st)) ->
         In (sourceFile, o) log ->
         o <> SkippedSize).
Proof.
  assert (Hp : forall st0 sourceFile,
             processFile (withMaxFileSize (Some 0%Z) opts) st0 sourceFile
             = processFile (withMaxFileSize None opts) st0 sourceFile)
    by reflexivity.
  assert (Hloop : forall files st0 n,
             copyLoop (withMaxFileSize (Some 0%Z) opts) st0 n files
             = copyLoop (withMaxFileSize None opts) st0 n files).
  { induction files as [|f files IH]; intros st0 n; simpl; [reflexivity|].
    rewrite Hp. destruct (processFile _ st0 f) as [st1 o]. now rewrite IH. }
  assert (Hrule : forall st0 pattern,
             runRule (withMaxFileSize (Some 0%Z) opts) denyRules st0 pattern
             = runRule (withMaxFileSize None opts) denyRules st0 pattern).
  { intros st0 pattern. unfold runRule.
    change (followSymlinks (withMaxFileSize (Some 0%Z) opts))
      with (followSymlinks (withMaxFileSize None opts)).
    destruct (globSync _ _ _) as [found|]; [|reflexivity].
    destruct (applyDenyRules denyRules found) as [matchingFiles|]; [|reflexivity].
    destruct (length _ =? 0)%nat; [reflexivity | now rewrite Hloop]. }
  split; [reflexivity|]. split; [exact Hp|]. split.
  - unfold run. now rewrite (runStep_ext _ _ _ _ Hrule).
  - intros rule log sourceFile o Hlog Hin.
    pose proof (run_reaches (withMaxFileSize (Some 0%Z) opts) denyRules copyRules st) as Hr.
    assert (Hin' : In (sourceFile, o)
                     (concat (map snd (snd (run (withMaxFileSize (Some 0%Z) opts)
                                               denyRules copyRules st))))).
    { apply in_concat. exists log. split; [|exact Hin].
      change log with (snd (rule, log)). now apply in_map. }
    destruct (reaches_In _ _ _ _ _ _ Hr Hin') as (st0 & st1 & Hproc).
    intros ->. unfold processFile in Hproc. simpl in Hproc.
    destruct (statSync (fs st0) sourceFile); [|discriminate].
    destruct (JS.includes _ _); [discriminate|].
    destruct (dryRun opts); [discriminate|].
    destruct (copyFileSync _ _ _) as [disk []]; discriminate.
Qed.

(** *** Accounting *)

Lemma sourcesWith_cons (p : Outcome -> bool) (f : string) (o : Outcome)
  (log : list (string * Outcome)) :
  sourcesWith p ((f, o) :: log)
  = if p o then f :: sourcesWith p log else sourcesWith p log.
Proof. unfold sourcesWith. simpl. now destruct (p o). Qed.

Lemma sourcesWith_app (p : Outcome -> bool) (log1 log2 : list (string * Outcome)) :
  sourcesWith p (log1 ++ log2) = (sourcesWith p log1 ++ sourcesWith p log2)%list.
Proof. unfold sourcesWith. now rewrite filter_app, map_app. Qed.

(** One iteration moves its path to exactly one of the accumulators. *)
Lemma processFile_accounting (opts : Options) (st st1 : RunState FS)
  (f : string) (o : Outcome) :
  processFile opts st f = (st1, o) ->
  skippedFiles st1 = (skippedFiles st ++ sourcesWith isSkipped [(f, o)])%list
  /\ errorFiles st1 = (errorFiles st ++ sourcesWith isError [(f, o)])%list
  /\ copiedFiles st1
     = (copiedFiles st ++ map (targetFilePath opts) (sourcesWith isCopied [(f, o)]))%list
  /\ (o = Copied -> JS.includes (copiedFiles st) (targetFilePath opts f) = false).
Proof.
  unfold processFile, sourcesWith.
  destruct (statSync (fs st) f) as [size|].
  - destruct (exceedsLimit _ _);
      [intros H; injection H as <- <-; simpl; rewrite !app_nil_r; repeat split; discriminate|].
    destruct (JS.includes _ _) eqn:E;
      [intros H; injection H as <- <-; simpl; rewrite !app_nil_r; repeat split; discriminate|].
    destruct (dryRun opts);
      [intros H; injection H as <- <-; simpl; rewrite !app_nil_r; repeat split; discriminate|].
    destruct (copyFileSync _ _ _) as [disk []];
      intros H; injection H as <- <-; simpl; rewrite ?app_nil_r; repeat split;
      discriminate.
  - intros H; injection H as <- <-; simpl; rewrite !app_nil_r; repeat split; discriminate.
Qed.

Lemma reaches_accounting (opts : Options) (st st1 : RunState FS)
  (log : list (string * Outcome)) :
  reaches opts st log st1 ->
  skippedFiles st1 = (skippedFiles st ++ sourcesWith isSkipped log)%list
  /\ errorFiles st1 = (errorFiles st ++ sourcesWith isError log)%list
  /\ copiedFiles st1
     = (copiedFiles st ++ map (targetFilePath opts) (sourcesWith isCopied log))%list.
Proof.
  induction 1 as [|st f st1 o log st2 Hp _ IH].
  - unfold sourcesWith. simpl. now rewrite !app_nil_r.
  - destruct (processFile_accounting opts st st1 f o Hp) as (Hs & He & Hc & _).
    destruct IH as (IHs & IHe & IHc).
    rewrite IHs, IHe, IHc, Hs, He, Hc.
    change ((f, o) :: log) with ([(f, o)] ++ log)%list.
    rewrite !sourcesWith_app, map_app, <- !app_assoc. auto.
Qed.

(** *** Claims on errors *)


(** *** Claims on duplicates *)

Lemma includes_In (l : list string) (x : string) :
  JS.includes l x = true <-> In x l.
Proof.
  unfold JS.includes. rewrite existsb_exists. split.
  - intros (y & Hy & E). apply String.eqb_eq in E. now subst.
  - intros H. exists x. split; [exact H | apply String.eqb_refl].
Qed.

Lemma processFile_copied_origin (opts : Options) (st st1 : RunState FS)
  (sourceFile : string) (o : Outcome) (target : string) :
  processFile opts st sourceFile = (st1, o) ->
  (In target (copiedFiles st) -> In target (copiedFiles st1))
  /\ (In target (copiedFiles st1) ->
      In target (copiedFiles st)
      \/ (o = Copied /\ target = targetFilePath opts sourceFile))
  /\ (o = Copied -> In (targetFilePath opts sourceFile) (copiedFiles st1)).
Proof.
  unfold processFile.
  destruct (statSync (fs st) sourceFile) as [size|].
  - destruct (exceedsLimit _ _);
      [intros H; injection H as <- <-; simpl; repeat split; auto; discriminate|].
    destruct (JS.includes _ _);
      [intros H; injection H as <- <-; simpl; repeat split; auto; discriminate|].
    destruct (dryRun opts);
      [intros H; injection H as <- <-; simpl; repeat split; auto; discriminate|].
    destruct (copyFileSync _ _ _) as [disk []];
      intros H; injection H as <- <-; simpl; repeat split; auto; try discriminate.
    + intros Hin. apply in_or_app. now left.
    + intros Hin. apply in_app_or in Hin. destruct Hin as [Hin|[<-|[]]]; auto.
    + intros _. apply in_or_app. right. now left.
  - intros H; injection H as <- <-; simpl; repeat split; auto; discriminate.
Qed.

Lemma reaches_copied_mono (opts : Options) (st st' : RunState FS)
  (log : list (string * Outcome)) (target : string) :
  reaches opts st log st' ->
  In target (copiedFiles st) -> In target (copiedFiles st').
Proof.
  induction 1 as [|st f st1 o log st2 Hp _ IH]; [auto|].
  intros Hin. apply IH.
  now apply (proj1 (processFile_copied_origin opts st st1 f o target Hp)).
Qed.

Lemma reaches_copied_origin (opts : Options) (st st' : RunState FS)
  (log : list (string * Outcome)) (target : string) :
  reaches opts st log st' ->
  In target (copiedFiles st') ->
  In target (copiedFiles st)
  \/ exists sourceFile,
       In (sourceFile, Copied) log /\ target = targetFilePath opts sourceFile.
Proof.
  induction 1 as [|st f st1 o log st2 Hp _ IH]; [auto|].
  intros Hin. destruct (IH Hin) as [H1|(g & Hg & ->)].
  - destruct (proj1 (proj2 (processFile_copied_origin opts st st1 f o target Hp)) H1)
      as [H0|[-> ->]]; [now left|].
    right. exists f. split; [now left | reflexivity].
  - right. exists g. split; [now right | reflexivity].
Qed.

(** C4, amended.  In a run that copies (no dry run), among the files
    whose size is read and is within the limit: a file is copied when its
    copy succeeds and no file was copied to its target path before it;
    once a file is copied, every later file with the same flat name gets
    the outcome skipped-duplicate and is pushed to [skippedFiles], with
    nothing recorded as an error; and a file is skipped as a duplicate
    only when an earlier file of the run was copied to its target path. *)
Theorem first_wins_duplicates (opts : Options) :
  dryRun opts = false ->
  (forall st0 log st first fileSize disk,
      copiedFiles st0 = [] ->
      reaches opts st0 log st ->
      (forall earlier, In (earlier, Copied) log ->
                       targetFilePath opts earlier <> targetFilePath opts first) ->
      statSync (fs st) first = Some fileSize ->
      exceedsLimit (maxFileSize opts) fileSize = false ->
      copyFileSync (fs st) first (targetFilePath opts first) = (disk, true) ->
      snd (processFile opts st first) = Copied)
  /\ (forall st first st1 log st2 later fileSize,
         processFile opts st first = (st1, Copied) ->
         reaches opts st1 log st2 ->
         flatName later = flatName first ->
         statSync (fs st2) later = Some fileSize ->
         exceedsLimit (maxFileSize opts) fileSize = false ->
         processFile opts st2 later = (pushSkipped st2 later, SkippedDuplicate))
  /\ (forall st0 log st later st1,
         copiedFiles st0 = [] ->
         reaches opts st0 log st ->
         processFile opts st later = (st1, SkippedDuplicate) ->
         exists first,
           In (first, Copied) log
           /\ targetFilePath opts first = targetFilePath opts later).
Proof.
  intros Hreal. split; [|split].
  - intros st0 log st first fileSize disk H0 Hreach Hfirst Hstat Hlimit Hcopy.
    unfold processFile. rewrite Hstat, Hlimit.
    destruct (JS.includes (copiedFiles st) (targetFilePath opts first)) eqn:E.
    + exfalso. apply includes_In in E.
      destruct (reaches_copied_origin opts st0 st log _ Hreach E) as [H|(g & Hg & Ht)].
      * rewrite H0 in H. contradiction.
      * apply (Hfirst g Hg). now symmetry.
    + now rewrite Hreal, Hcopy.
  - intros st first st1 log st2 later fileSize Hproc Hreach Hname Hstat Hlimit.
    assert (Hin : In (targetFilePath opts later) (copiedFiles st2)).
    { unfold targetFilePath. rewrite Hname.
      apply (reaches_copied_mono opts st1 st2 log _ Hreach).
      now apply (proj2 (proj2 (processFile_copied_origin opts st st1 first Copied
                                 (targetFilePath opts first) Hproc))). }
    apply includes_In in Hin.
    unfold processFile. now rewrite Hstat, Hlimit, Hin.
  - intros st0 log st later st1 H0 Hreach Hproc.
    assert (Hin : In (targetFilePath opts later) (copiedFiles st)).
    { apply includes_In. unfold processFile in Hproc.
      destruct (statSync (fs st) later) as [size|]; [|discriminate].
      destruct (exceedsLimit _ _); [discriminate|].
      destruct (JS.includes _ _); [reflexivity|].
      destruct (dryRun opts); [discriminate|].
      destruct (copyFileSync _ _ _) as [disk []]; discriminate. }
    destruct (reaches_copied_origin opts st0 st log _ Hreach Hin) as [H|(g & Hg & Ht)].
    + rewrite H0 in H. contradiction.
    + exists g. split; [exact Hg | now symmetry].
Qed.

(** In a dry run nothing is pushed to [copiedFiles] and the file system
    is left as it is. *)
Lemma dry_run_records_nothing (opts : Options) (st st1 : RunState FS)
  (sourceFile : string) (o : Outcome) :
  dryRun opts = true ->
  processFile opts st sourceFile = (st1, o) ->
  copiedFiles st1 = copiedFiles st /\ fs st1 = fs st.
Proof.
  intros Hdry. unfold processFile. rewrite Hdry.
  destruct (statSync (fs st) sourceFile) as [size|].
  - destruct (exceedsLimit _ _); [intros H; injection H as <- <-; now split|].
    destruct (JS.includes _ _); intros H; injection H as <- <-; now split.
  - intros H; injection H as <- <-; now split.
Qed.

(** In a dry run that starts with nothing copied, no file is classified
    as a duplicate, whatever the rules find. *)
Theorem dry_run_reports_no_duplicate (opts : Options) (st st1 : RunState FS)
  (log : list (string * Outcome)) (sourceFile : string) (o : Outcome) :
  dryRun opts = true ->
  copiedFiles st = [] ->
  reaches opts st log st1 ->
  In (sourceFile, o) log ->
  o <> SkippedDuplicate.
Proof.
  intros Hdry H0 Hreach. revert H0.
  induction Hreach as [|st f st1 o' log st2 Hp _ IH]; intros H0 Hin; [contradiction|].
  destruct Hin as [Hin|Hin].
  - injection Hin as -> ->. intros ->.
    unfold processFile in Hp. rewrite H0, Hdry in Hp. simpl in Hp.
    destruct (statSync (fs st) sourceFile); [|discriminate].
    destruct (exceedsLimit _ _); discriminate.
  - apply IH; [|exact Hin].
    destruct (dry_run_records_nothing opts st st1 f o' Hdry Hp) as [-> _]. exact H0.
Qed.

End Facts.
(** *** Concrete runs on the small host *)

Section ToyRuns.

Import Toy.




(** C6, as the claim states it, fails for a limit of zero bytes: a file of
    three bytes exceeds it and is copied. *)
Lemma zero_limit_skips_nothing :
  statSync (fs (initialState oneFile)) "a.txt" = Some 3%Z
  /\ (0 <? 3)%Z = true
  /\ snd (processFile (options false (Some 0%Z)) (initialState oneFile) "a.txt") = Copied.
Proof. repeat split. Qed.

(** With a limit of 1024 bytes a file of 1024 bytes is copied and a file
    of 1025 bytes is skipped for its size. *)
Lemma size_limit_boundary_witness :
  snd (processFile (options false (Some 1024%Z)) (initialState boundaryFiles) "exact.bin")
  = Copied
  /\ processFile (options false (Some 1024%Z)) (initialState boundaryFiles) "over.bin"
     = (pushSkipped (initialState boundaryFiles) "over.bin", SkippedSize).
Proof.
  split.
  - destruct (size_limit_boundary (options false (Some 1024%Z)) (initialState boundaryFiles)
                "exact.bin" 1024%Z 1024%Z eq_refl ltac:(discriminate) eq_refl)
      as [H _].
    destruct (H ltac:(discriminate)) as [_ ->]. reflexivity.
  - destruct (size_limit_boundary (options false (Some 1024%Z)) (initialState boundaryFiles)
                "over.bin" 1024%Z 1025%Z eq_refl ltac:(discriminate) eq_refl)
      as [_ H].
    exact (proj1 (H eq_refl)).
Defined.

(** C4, as the claim states it, fails: a file found by two rules that is
    over the size limit is skipped for its size both times, and one whose
    copy cannot be written is an error both times; in neither run is the
    first copied and the second a skipped duplicate. *)
Lemma same_flat_name_without_copy :
  snd (run (options false (Some 2%Z)) [] ["**"; "a.txt"] (initialState oneFile))
  = [("**", [("a.txt", SkippedSize)]); ("a.txt", [("a.txt", SkippedSize)])]
  /\ snd (run (options false None) [] ["a.txt"; "a.txt"] (initialState readOnlyTarget))
     = [("a.txt", [("a.txt", Error)]); ("a.txt", [("a.txt", Error)])].
Proof. split; reflexivity. Qed.

(** A file found by two rules is copied for the first and skipped as a
    duplicate for the second. *)
Lemma first_wins_duplicates_witness :
  processFile (options false None) (fst (processFile (options false None) (initialState oneFile) "a.txt")) "a.txt"
  = (pushSkipped (fst (processFile (options false None) (initialState oneFile) "a.txt")) "a.txt",
     SkippedDuplicate)
  /\ snd (processFile (options false None) (initialState oneFile) "a.txt") = Copied.
Proof.
  destruct (first_wins_duplicates (host := Toy.host) (options false None) eq_refl)
    as (Hfirst & Hlater & _).
  split.
  - apply (Hlater (initialState oneFile) "a.txt"
             (fst (processFile (options false None) (initialState oneFile) "a.txt")) []
             (fst (processFile (options false None) (initialState oneFile) "a.txt"))
             "a.txt" 3%Z);
      [reflexivity | constructor | reflexivity | reflexivity | reflexivity].
  - apply (Hfirst (initialState oneFile) [] (initialState oneFile) "a.txt" 3%Z
             (fst (copy oneFile "a.txt" "../out/a.txt")) eq_refl);
      [constructor | intros earlier [] | reflexivity | reflexivity | reflexivity].
Defined.

(** A copy that cannot be written is an error for its path, and the next
    path of the rule is copied. *)
Example error_then_copy :
  snd (run (options false None) [] ["**"] (initialState readOnlyTarget))
  = [("**", [("a.txt", Error); ("b.txt", Copied)])].
Proof. reflexivity. Qed.

(** An include rule of more than 65536 characters ends the run when its
    turn comes: the rule before it has been run, the rule after it is
    not. *)
Example long_rule_ends_the_run :
  runAll (options false None) [] ["a.txt"; longPattern; "b.txt"]
    (initialState readOnlyTarget)
  = ({| fs := readOnlyTarget;
        copiedFiles := [];
        skippedFiles := [];
        errorFiles := ["a.txt"];
        totalBytes := 0 |},
     0%Z, [("a.txt", [("a.txt", Error)])], true).
Proof. vm_compute. reflexivity. Qed.

(** Two files whose flat names coincide: the second is skipped as a
    duplicate of the first. *)
Example colliding_names_skip_second :
  snd (run (options false None) [] ["**"] (initialState twoFiles))
  = [("**", [("a_/b", Copied); ("a/_b", SkippedDuplicate)])].
Proof. reflexivity. Qed.

(** C3.  With the include rules [**] and [a.txt] on a disk that holds
    [a.txt], the run that copies classifies the second discovery of the
    file as a skipped duplicate and counts one copy of three bytes; the dry
    run classifies both discoveries as would-copy and counts two copies
    and six bytes, with nothing skipped. *)
Theorem dry_run_misses_duplicates :
  run (options false None) [] ["**"; "a.txt"] (initialState oneFile)
  = ({| fs := {| files := [("a.txt", 3%Z); ("../out/a.txt", 3%Z)]; unwritable := [] |};
        copiedFiles := ["../out/a.txt"];
        skippedFiles := ["a.txt"];
        errorFiles := [];
        totalBytes := 3 |},
     1%Z,
     [("**", [("a.txt", Copied)]); ("a.txt", [("a.txt", SkippedDuplicate)])])
  /\ run (options true None) [] ["**"; "a.txt"] (initialState oneFile)
     = ({| fs := oneFile;
           copiedFiles := [];
           skippedFiles := [];
           errorFiles := [];
           totalBytes := 6 |},
        2%Z,
        [("**", [("a.txt", WouldCopy)]); ("a.txt", [("a.txt", WouldCopy)])]).
Proof. split; reflexivity. Qed.

(** The dry run over [**] and [a.txt] reports no duplicate. *)
Lemma dry_run_reports_no_duplicate_witness :
  Forall (fun entry => snd entry <> SkippedDuplicate)
    (concat (map snd (snd (run (options true None) [] ["**"; "a.txt"]
                             (initialState oneFile))))).
Proof.
  apply Forall_forall. intros [f o] Hin.
  apply (dry_run_reports_no_duplicate (options true None) (initialState oneFile)
           (fst (fst (run (options true None) [] ["**"; "a.txt"] (initialState oneFile))))
           _ f o eq_refl eq_refl (run_reaches _ _ _ _) Hin).
Defined.

End ToyRuns.

End EngineFacts.
(** ** Accounting of a run *)

Module RunFacts.

Import ListFacts EngineFacts.

Section Facts.

Context {FS : Type} {host : Host FS}.

Lemma copyLoop_total (opts : Options) (files : list string) :
  forall st n,
    snd (fst (copyLoop opts st n files))
    = (n + Z.of_nat (length (sourcesWith countsAsCopy (snd (copyLoop opts st n files)))))%Z.
Proof.
  induction files as [|f files IH]; intros st n; simpl.
  - unfold sourcesWith. simpl. lia.
  - destruct (processFile opts st f) as [st1 o].
    specialize (IH st1 (if countsAsCopy o then (n + 1)%Z else n)).
    destruct (copyLoop opts st1 _ files) as [[st2 total] log]; simpl in *.
    rewrite IH, sourcesWith_cons. destruct (countsAsCopy o); simpl length; lia.
Qed.

Lemma runRule_total (opts : Options) (denyRules : list string) (st st1 : RunState FS)
  (pattern : string) (n : Z) (log : list (string * Outcome)) :
  runRule opts denyRules st pattern = Some (st1, n, log) ->
  n = Z.of_nat (length (sourcesWith countsAsCopy log)).
Proof.
  unfold runRule.
  destruct (globSync _ _ _) as [found|]; [|discriminate].
  destruct (applyDenyRules denyRules found) as [matchingFiles|]; [|discriminate].
  destruct (length matchingFiles =? 0)%nat.
  - intros H; injection H as <- <- <-. reflexivity.
  - intros H. pose proof (copyLoop_total opts matchingFiles st 0%Z) as Ht.
    assert (H' : copyLoop opts st 0%Z matchingFiles = (st1, n, log)) by congruence.
    rewrite H' in Ht. simpl in Ht. lia.
Qed.

Lemma run_total (opts : Options) (denyRules copyRules : list string) (st : RunState FS) :
  snd (fst (run opts denyRules copyRules st))
  = Z.of_nat (length (sourcesWith countsAsCopy
                        (flatLog (snd (run opts denyRules copyRules st))))).
Proof.
  unfold run. revert st.
  induction copyRules as [|rule copyRules IH]; intros st; [reflexivity|].
  rewrite runAll_cons.
  destruct (runRule opts denyRules st rule) as [[[st1 n] log]|] eqn:E; [|reflexivity].
  pose proof (runRule_total opts denyRules st st1 rule n log E) as Hn.
  specialize (IH st1).
  destruct (runAll opts denyRules copyRules st1) as [[[st2 m] logs] thrown]; simpl in *.
  unfold flatLog in *. simpl. rewrite sourcesWith_app, length_app. lia.
Qed.

(** Every path a run processes is accounted for once: it is counted in
    the number of copies the run returns, or appended to [skippedFiles],
    or appended to [errorFiles], in processing order. *)
Theorem run_accounts_for_every_path (opts : Options) (denyRules copyRules : list string)
  (st : RunState FS) :
  let result := run opts denyRules copyRules st in
  let log := flatLog (snd result) in
  snd (fst result) = Z.of_nat (length (sourcesWith countsAsCopy log))
  /\ skippedFiles (fst (fst result)) = (skippedFiles st ++ sourcesWith isSkipped log)%list
  /\ errorFiles (fst (fst result)) = (errorFiles st ++ sourcesWith isError log)%list
  /\ (length log
      = length (sourcesWith countsAsCopy log) + length (sourcesWith isSkipped log)
        + length (sourcesWith isError log))%nat.
Proof.
  cbv zeta. split; [apply run_total|].
  destruct (reaches_accounting opts _ _ _ (run_reaches opts denyRules copyRules st))
    as (Hs & He & _).
  split; [exact Hs|]. split; [exact He|].
  generalize (flatLog (snd (run opts denyRules copyRules st))). intros log.
  induction log as [|[f o] log IH]; [reflexivity|].
  rewrite !sourcesWith_cons. destruct o; simpl; lia.
Qed.



Lemma reaches_dry (opts : Options) (st st1 : RunState FS)
  (log : list (string * Outcome)) :
  dryRun opts = true -> reaches opts st log st1 ->
  fs st1 = fs st /\ copiedFiles st1 = copiedFiles st.
Proof.
  intros Hdry. induction 1 as [|st f st1 o log st2 Hp _ IH]; [now split|].
  destruct (dry_run_records_nothing opts st st1 f o Hdry Hp) as [Hc Hf].
  destruct IH as [-> ->]. now split.
Qed.

(** A dry run leaves the file system as it found it, whatever the rules
    match, and pushes nothing to [copiedFiles]. *)
Theorem dry_run_leaves_disk_untouched (opts : Options) (denyRules copyRules : list string)
  (st : RunState FS) :
  dryRun opts = true ->
  fs (fst (fst (run opts denyRules copyRules st))) = fs st
  /\ copiedFiles (fst (fst (run opts denyRules copyRules st))) = copiedFiles st.
Proof.
  intros Hdry.
  apply (reaches_dry opts _ _ _ Hdry (run_reaches opts denyRules copyRules st)).
Qed.

(** A run that is left by an exception has run the rules before the one
    that throws, and keeps what they did: the accumulators, the sum and
    the outcomes are those of the run of these rules alone, which is not
    left by an exception, and the next rule throws in the state they
    left. *)
Theorem abort_keeps_earlier_rules (opts : Options) (denyRules copyRules : list string)
  (st : RunState FS) :
  runThrows opts denyRules copyRules st = true ->
  exists done rule rest,
    copyRules = (done ++ rule :: rest)%list
    /\ run opts denyRules copyRules st = run opts denyRules done st
    /\ runThrows opts denyRules done st = false
    /\ map fst (snd (run opts denyRules copyRules st)) = done
    /\ runRule opts denyRules (fst (fst (run opts denyRules copyRules st))) rule = None.
Proof.
  unfold run, runThrows. revert st.
  induction copyRules as [|r copyRules IH]; intros st; [discriminate|].
  rewrite runAll_cons.
  destruct (runRule opts denyRules st r) as [[[st1 n] log]|] eqn:E.
  - specialize (IH st1).
    destruct (runAll opts denyRules copyRules st1) as [[[st2 m] logs] thrown] eqn:Eall.
    simpl. intros Hthrown. destruct (IH Hthrown) as (done & rule & rest & -> & H1 & H2 & H3 & H4).
    exists (r :: done), rule, rest. rewrite runAll_cons, E.
    destruct (runAll opts denyRules done st1) as [[[st3 k] logs3] thrown3].
    simpl in *. subst thrown3. injection H1 as <- <- <-.
    repeat split; [now rewrite H3 | exact H4].
  - intros _. exists [], r, copyRules. repeat split. exact E.
Qed.

End Facts.

(** The dry run over [**] and [a.txt] leaves the disk as it was. *)
Lemma dry_run_leaves_disk_untouched_witness :
  fs (fst (fst (run (host := Toy.host) (Toy.options true None) [] ["**"; "a.txt"]
                  (initialState Toy.oneFile))))
  = Toy.oneFile.
Proof.
  exact (proj1 (dry_run_leaves_disk_untouched (host := Toy.host) (Toy.options true None)
                  [] ["**"; "a.txt"] (initialState Toy.oneFile) eq_refl)).
Defined.

(** With the rules [**], a rule of 65537 characters and [b.txt], the run
    is left by an exception after [**] has copied both files. *)
Lemma abort_keeps_earlier_rules_witness :
  exists rule rest,
    ["**"; Toy.longPattern; "b.txt"] = (["**"] ++ rule :: rest)%list
    /\ run (host := Toy.host) (Toy.options false None) []
         ["**"; Toy.longPattern; "b.txt"] (initialState Toy.boundaryFiles)
       = run (host := Toy.host) (Toy.options false None) [] ["**"]
           (initialState Toy.boundaryFiles)
    /\ copiedFiles
         (fst (fst (run (host := Toy.host) (Toy.options false None) []
                      ["**"; Toy.longPattern; "b.txt"] (initialState Toy.boundaryFiles))))
       = ["../out/exact.bin"; "../out/over.bin"].
Proof.
  destruct (abort_keeps_earlier_rules (host := Toy.host) (Toy.options false None) []
              ["**"; Toy.longPattern; "b.txt"] (initialState Toy.boundaryFiles))
    as (done & rule & rest & Hsplit & Hrun & _ & Hdone & _);
    [vm_compute; reflexivity|].
  assert (Hd : done = ["**"]) by (rewrite <- Hdone; vm_compute; reflexivity).
  subst done. exists rule, rest.
  split; [exact Hsplit|]. split; [exact Hrun|]. vm_compute. reflexivity.
Defined.

End RunFacts.

(** ** Rule file and [.gitignore] *)

Module ConfigFacts.

Import JS Config ListFacts.

Lemma hasChar_trimStart (c : ascii) (s : string) :
  hasChar c s = false -> hasChar c (trimStart s) = false.
Proof.
  induction s as [|d s IH]; simpl; [auto|].
  intros H. apply orb_false_iff in H. destruct H as [Hd Hs].
  destruct (isWhiteSpace d); [auto|]. simpl. now rewrite Hd, Hs.
Qed.

Lemma hasChar_trimEnd (c : ascii) (s : string) :
  hasChar c s = false -> hasChar c (trimEnd s) = false.
Proof.
  induction s as [|d s IH]; simpl; [auto|].
  intros H. apply orb_false_iff in H. destruct H as [Hd Hs].
  specialize (IH Hs). destruct (trimEnd s) as [|e r].
  - destruct (isWhiteSpace d); simpl; [reflexivity | now rewrite Hd].
  - simpl in *. now rewrite Hd, IH.
Qed.

Lemma hasChar_trim (c : ascii) (s : string) :
  hasChar c s = false -> hasChar c (trim s) = false.
Proof. intros H. now apply hasChar_trimEnd, hasChar_trimStart. Qed.

Lemma trimEnd_idempotent (s : string) : trimEnd (trimEnd s) = trimEnd s.
Proof.
  induction s as [|c s IH]; simpl; [reflexivity|].
  destruct (trimEnd s) as [|d r] eqn:E.
  - destruct (isWhiteSpace c) eqn:Ec; simpl; [reflexivity | now rewrite Ec].
  - simpl in *. now rewrite IH.
Qed.

Lemma trimStart_head (s : string) :
  match trimStart s with
  | EmptyString => True
  | String c _ => isWhiteSpace c = false
  end.
Proof.
  induction s as [|c s IH]; simpl; [exact I|].
  destruct (isWhiteSpace c) eqn:E; [exact IH | exact E].
Qed.

Lemma trimStart_trimEnd (s : string) :
  match s with
  | EmptyString => True
  | String c _ => isWhiteSpace c = false
  end ->
  trimStart (trimEnd s) = trimEnd s.
Proof.
  destruct s as [|c s]; [reflexivity|]. intros Hc. simpl.
  destruct (trimEnd s) as [|d r]; [rewrite Hc|]; simpl; now rewrite Hc.
Qed.

Lemma trim_idempotent (s : string) : trim (trim s) = trim s.
Proof.
  unfold trim. rewrite (trimStart_trimEnd _ (trimStart_head s)).
  apply trimEnd_idempotent.
Qed.

Lemma terminator_not_hash (c : ascii) :
  isLineTerminator c = true -> Ascii.eqb c "#" = false.
Proof.
  unfold isLineTerminator. rewrite orb_true_iff, !Ascii.eqb_eq.
  intros [-> | ->]; reflexivity.
Qed.

Lemma stripFrom_no_hash (s : string) :
  forall inComment, hasChar "#" (stripFrom inComment s) = false.
Proof.
  induction s as [|c s IH]; intros b; simpl; [reflexivity|].
  destruct (isLineTerminator c) eqn:Et.
  - simpl. now rewrite (terminator_not_hash c Et), IH.
  - destruct b; [apply IH|].
    destruct (Ascii.eqb c "#") eqn:Eh; [apply IH|].
    simpl. now rewrite Eh, IH.
Qed.

Lemma hasChar_stripFrom (c : ascii) (s : string) :
  forall inComment, hasChar c s = false -> hasChar c (stripFrom inComment s) = false.
Proof.
  induction s as [|d s IH]; intros b; simpl; [auto|].
  intros H. apply orb_false_iff in H. destruct H as [Hd Hs].
  destruct (isLineTerminator d); [simpl; now rewrite Hd, IH|].
  destruct b; [now apply IH|].
  destruct (Ascii.eqb d "#"); [now apply IH|].
  simpl. now rewrite Hd, IH.
Qed.

Lemma truthyString_nonempty (s : string) :
  truthyString s = true -> s <> EmptyString.
Proof. destruct s; [discriminate | discriminate]. Qed.


Lemma split_app (sep : ascii) (a b : string) :
  split sep (a ++ String sep b) = (split sep a ++ split sep b)%list.
Proof.
  induction a as [|c a IH]; simpl.
  - now rewrite Ascii.eqb_refl.
  - destruct (Ascii.eqb c sep); [now rewrite IH|].
    rewrite IH.
    destruct (split sep a) as [|h t] eqn:E;
      [now destruct (TransformFacts.split_not_nil sep a)|reflexivity].
Qed.

(** Every rule read from the rule file is non-empty, holds no [#] and no
    line feed, and has no white space at either end. *)
Theorem flattenList_rules_are_clean (configText : string) :
  Forall (fun rule =>
            rule <> EmptyString
            /\ hasChar "#" rule = false
            /\ hasChar LF rule = false
            /\ trim rule = rule)
    (flattenList configText).
Proof.
  unfold flattenList. apply Forall_forall. intros rule Hin.
  apply filter_In in Hin. destruct Hin as [Hin Ht].
  apply in_map_iff in Hin. destruct Hin as (stripped & <- & Hin).
  apply in_map_iff in Hin. destruct Hin as (line & <- & Hin).
  split; [now apply truthyString_nonempty|].
  split; [apply hasChar_trim, stripFrom_no_hash|].
  split; [|apply trim_idempotent].
  apply hasChar_trim, hasChar_stripFrom.
  pose proof (TransformFacts.split_no_sep LF configText) as H.
  rewrite Forall_forall in H. now apply H.
Qed.

(** The rules of the file split into include and exclude rules: an
    include rule is a rule that does not start with [!], an exclude
    pattern is what follows the [!] of a rule that does, and no rule is
    lost or counted twice. *)
Theorem rules_partition (rules : list string) :
  (forall rule, In rule (copyRulesOf rules)
                <-> In rule rules /\ startsWith "!" rule = false)
  /\ (forall pattern, In pattern (denyRulesOf rules) <-> In (String "!" pattern) rules)
  /\ (length (copyRulesOf rules) + length (denyRulesOf rules) = length rules)%nat.
Proof.
  unfold copyRulesOf, denyRulesOf. split; [|split].
  - intros rule. rewrite filter_In, negb_true_iff. reflexivity.
  - intros pattern. rewrite in_map_iff. split.
    + intros (rule & <- & Hin). apply filter_In in Hin. destruct Hin as [Hin Hs].
      destruct rule as [|c r]; [discriminate|].
      simpl in Hs. apply Ascii.eqb_eq in Hs. now subst c.
    + intros Hin. exists (String "!" pattern). split; [reflexivity|].
      apply filter_In. now split.
  - rewrite length_map.
    induction rules as [|r rules IH]; [reflexivity|].
    simpl. destruct (startsWith "!" r); simpl; lia.
Qed.

(** The rule list of a text is the rule list of what precedes a line feed
    followed by the rule list of what follows it. *)
Theorem flattenList_by_lines (before after : string) :
  flattenList (before ++ String LF after)
  = (flattenList before ++ flattenList after)%list.
Proof.
  unfold flattenList. now rewrite split_app, !map_app, filter_app.
Qed.


Lemma stripFrom_plain (p rest : string) :
  hasChar "#" p = false ->
  stripFrom false (p ++ rest) = p ++ stripFrom false rest.
Proof.
  induction p as [|d p IH]; simpl; [reflexivity|].
  intros H. apply orb_false_iff in H. destruct H as [Hd Hp].
  destruct (isLineTerminator d); [now rewrite IH|].
  now rewrite Hd, IH.
Qed.





(** The patterns read from [.gitignore] are non-empty, do not start with
    [#], hold no line feed, and have no white space at either end. *)
Lemma gitignore_patterns_are_clean (content : string) :
  Forall (fun pattern =>
            pattern <> EmptyString
            /\ startsWith "#" pattern = false
            /\ hasChar LF pattern = false
            /\ trim pattern = pattern)
    (gitignorePatterns content).
Proof.
  unfold gitignorePatterns. apply Forall_forall. intros pattern Hin.
  apply filter_In in Hin. destruct Hin as [Hin Ht].
  apply andb_true_iff in Ht. destruct Ht as [Ht Hs].
  apply in_map_iff in Hin. destruct Hin as (line & <- & Hin).
  split; [now apply truthyString_nonempty|].
  split; [now apply negb_true_iff|].
  split; [|apply trim_idempotent].
  apply hasChar_trim.
  pose proof (TransformFacts.split_no_sep LF content) as H.
  rewrite Forall_forall in H. now apply H.
Qed.

(** A [#] inside a line starts a comment in the rule file and is part of
    the pattern in [.gitignore]. *)
Example hash_inside_a_line :
  flattenList "build#old" = ["build"] /\ gitignorePatterns "build#old" = ["build#old"].
Proof. split; reflexivity. Qed.

Lemma startsWith_hasChar (c : ascii) (s : string) :
  hasChar c s = false -> startsWith c s = false.
Proof.
  destruct s as [|d s]; simpl; [reflexivity|].
  intros H. now apply orb_false_iff in H.
Qed.

(** A text without any [#] is read the same way as a rule file and as a
    [.gitignore]. *)
Theorem gitignore_agrees_with_rule_file (content : string) :
  hasChar "#" content = false ->
  gitignorePatterns content = flattenList content.
Proof.
  intros Hhash. unfold gitignorePatterns, flattenList.
  pose proof (TransformFacts.split_chars LF "#" content Hhash) as Hlines.
  rewrite Forall_forall in Hlines.
  rewrite map_map.
  assert (Hmap : map trim (split LF content)
                 = map (fun line => trim (stripComments line)) (split LF content)).
  { apply map_ext_in. intros line Hin. unfold stripComments.
    pose proof (stripFrom_plain line EmptyString (Hlines line Hin)) as H.
    rewrite append_nil_r in H. simpl in H. rewrite append_nil_r in H.
    now rewrite H. }
  rewrite <- Hmap.
  apply filter_ext_in. intros trimmed Hin.
  apply in_map_iff in Hin. destruct Hin as (line & <- & Hin).
  rewrite (startsWith_hasChar "#" (trim line)); [apply andb_true_r|].
  apply hasChar_trim. now apply Hlines.
Qed.

(** A text of two patterns and a blank line is read the same way by both
    readers. *)
Lemma gitignore_agrees_with_rule_file_witness :
  gitignorePatterns (String "a" (String LF (String " " (String LF "dist/"))))
  = flattenList (String "a" (String LF (String " " (String LF "dist/")))).
Proof. apply gitignore_agrees_with_rule_file. reflexivity. Defined.

End ConfigFacts.

(** ** Command line *)

Module CliFacts.

Import Cli.

Lemma list_length_ind {A : Type} (P : list A -> Prop) :
  (forall l, (forall l', (length l' < length l)%nat -> P l') -> P l) ->
  forall l, P l.
Proof.
  intros H l.
  assert (G : forall n l, (length l < n)%nat -> P l).
  { induction n as [|n IH]; intros l0 Hl; [lia|].
    apply H. intros l' Hl'. apply IH. lia. }
  apply (G (S (length l))). lia.
Qed.

Lemma endsWith_append_char (c : ascii) (s : string) :
  endsWith c (s ++ String c EmptyString) = true.
Proof.
  induction s as [|d s IH]; simpl; [apply Ascii.eqb_refl|].
  destruct (s ++ String c EmptyString) eqn:E; [|exact IH].
  destruct s; discriminate.
Qed.

Section Facts.

Variable os : platform.
Variable defaultTargetPath : string.

Lemma processArgs_unfold (arg : string) (rest : list string) (s : Settings) :
  processArgs os defaultTargetPath (arg :: rest) s
  = match argStep os defaultTargetPath arg rest s with
    | inl (rest1, s1) => processArgs os defaultTargetPath rest1 s1
    | inr outcome => outcome
    end.
Proof.
  unfold argStep. cbn [processArgs].
  destruct (Config.startsWith "-" arg).
  - cbv zeta.
    destruct (isOneOf ["i"; "init"] (flagOf arg)); [reflexivity|].
    destruct (isOneOf ["h"; "help"] (flagOf arg)); [reflexivity|].
    destruct (setFlag (flagOf arg) s); [reflexivity|].
    destruct (String.eqb (flagOf arg) "max-size"); [|reflexivity].
    destruct rest as [|sizeArg rest1]; [reflexivity|].
    destruct (JS.truthyString sizeArg); [|reflexivity].
    destruct (SizeArg.parseFileSize sizeArg); reflexivity.
  - destruct (String.eqb (targetPath s) defaultTargetPath); reflexivity.
Qed.

(** A turn of the loop takes one or two arguments from the front, and
    what it does depends on them only. *)
Lemma argStep_takes (arg : string) (rest rest1 : list string) (s s1 : Settings) :
  argStep os defaultTargetPath arg rest s = inl (rest1, s1) ->
  exists taken,
    (arg :: rest = arg :: taken ++ rest1)%list
    /\ forall more,
         argStep os defaultTargetPath arg (taken ++ more) s = inl (more, s1).
Proof.
  unfold argStep.
  destruct (Config.startsWith "-" arg).
  - cbv zeta.
    destruct (isOneOf ["i"; "init"] (flagOf arg)); [discriminate|].
    destruct (isOneOf ["h"; "help"] (flagOf arg)); [discriminate|].
    destruct (setFlag (flagOf arg) s) as [s2|].
    { intros H; injection H as <- <-. exists []. split; reflexivity. }
    destruct (String.eqb (flagOf arg) "max-size").
    + destruct rest as [|sizeArg rest2]; [discriminate|].
      destruct (JS.truthyString sizeArg) eqn:Et; [|discriminate].
      destruct (SizeArg.parseFileSize sizeArg) eqn:Ep; try discriminate;
        intros H; injection H as <- <-; exists [sizeArg];
        (split; [reflexivity|]); intros more; simpl; now rewrite Et, Ep.
    + intros H; injection H as <- <-. exists []. split; reflexivity.
  - destruct (String.eqb (targetPath s) defaultTargetPath);
      intros H; injection H as <- <-; exists []; split; reflexivity.
Qed.

Lemma argStep_shorter (arg : string) (rest rest1 : list string) (s s1 : Settings) :
  argStep os defaultTargetPath arg rest s = inl (rest1, s1) ->
  (length rest1 <= length rest)%nat.
Proof.
  intros H. destruct (argStep_takes _ _ _ _ _ H) as (taken & E & _).
  injection E as E. rewrite E, length_app. lia.
Qed.

Lemma argStep_stop (arg : string) (rest : list string) (s s' : Settings) :
  argStep os defaultTargetPath arg rest s <> inr (Parsed s').
Proof.
  unfold argStep.
  destruct (Config.startsWith "-" arg).
  - cbv zeta.
    destruct (isOneOf ["i"; "init"] (flagOf arg)); [discriminate|].
    destruct (isOneOf ["h"; "help"] (flagOf arg)); [discriminate|].
    destruct (setFlag (flagOf arg) s); [discriminate|].
    destruct (String.eqb (flagOf arg) "max-size"); [|discriminate].
    destruct rest as [|sizeArg rest1]; [discriminate|].
    destruct (JS.truthyString sizeArg); [|discriminate].
    destruct (SizeArg.parseFileSize sizeArg); discriminate.
  - destruct (String.eqb (targetPath s) defaultTargetPath); discriminate.
Qed.

Lemma processArgs_prefix (pre : list string) :
  forall s s',
    processArgs os defaultTargetPath pre s = Parsed s' ->
    forall rest,
      processArgs os defaultTargetPath (pre ++ rest) s
      = processArgs os defaultTargetPath rest s'.
Proof.
  induction pre as [pre IH] using list_length_ind.
  intros s s' H rest. destruct pre as [|arg pre].
  - simpl in H. injection H as <-. reflexivity.
  - rewrite processArgs_unfold in H.
    destruct (argStep os defaultTargetPath arg pre s)
      as [[rest1 s1]|outcome] eqn:E.
    + destruct (argStep_takes _ _ _ _ _ E) as (taken & Epre & Hmore).
      injection Epre as Epre. subst pre.
      change ((arg :: taken ++ rest1) ++ rest)%list
        with (arg :: (taken ++ rest1) ++ rest)%list.
      rewrite <- app_assoc, processArgs_unfold, Hmore.
      apply (IH rest1); [|exact H].
      simpl. rewrite length_app. lia.
    + subst outcome. now destruct (argStep_stop arg pre s s').
Qed.


(** Arguments compose: when the loop runs to its end on a list of
    arguments, it goes on from the settings it reached with whatever
    follows; so a help or init flag that follows ends the loop with that
    request, whatever unknown arguments came before it. *)
Theorem arguments_compose (pre : list string) (s s' : Settings) :
  processArgs os defaultTargetPath pre s = Parsed s' ->
  (forall rest,
      processArgs os defaultTargetPath (pre ++ rest) s
      = processArgs os defaultTargetPath rest s')
  /\ (forall flag rest,
         In flag ["-h"; "--h"; "-help"; "--help"] ->
         processArgs os defaultTargetPath (pre ++ flag :: rest) s
         = HelpRequested)
  /\ (forall flag rest,
         In flag ["-i"; "--i"; "-init"; "--init"] ->
         processArgs os defaultTargetPath (pre ++ flag :: rest) s
         = InitRequested).
Proof.
  intros H. split; [|split].
  - apply processArgs_prefix, H.
  - intros flag rest Hin. rewrite (processArgs_prefix pre s s' H).
    simpl in Hin. decompose [or] Hin; subst; try contradiction; reflexivity.
  - intros flag rest Hin. rewrite (processArgs_prefix pre s s' H).
    simpl in Hin. decompose [or] Hin; subst; try contradiction; reflexivity.
Qed.

Lemma flagOf_dashes (name : string) :
  Config.startsWith "-" name = false ->
  flagOf (String "-" name) = name /\ flagOf (String "-" (String "-" name)) = name.
Proof.
  intros H. unfold flagOf. simpl. split; [|reflexivity].
  destruct name as [|c name]; [reflexivity|].
  simpl in H. destruct c as [[] [] [] [] [] [] [] []]; try reflexivity; discriminate.
Qed.

(** Every flag the [switch] knows is accepted with one dash and with two:
    [-verbose] is [--verbose] and [--v] is [-v], wherever the flag
    stands. *)
Theorem dash_forms_agree (name : string) (rest : list string) (s : Settings) :
  In name knownFlags ->
  processArgs os defaultTargetPath (String "-" name :: rest) s
  = processArgs os defaultTargetPath (String "-" (String "-" name) :: rest) s.
Proof.
  intros Hin. rewrite !processArgs_unfold. unfold argStep.
  assert (Hname : Config.startsWith "-" name = false).
  { simpl in Hin. decompose [or] Hin; subst; try contradiction; reflexivity. }
  destruct (flagOf_dashes name Hname) as [-> ->].
  cbn [Config.startsWith]. rewrite Ascii.eqb_refl. cbv zeta.
  destruct (isOneOf ["i"; "init"] name) eqn:Ei; [reflexivity|].
  destruct (isOneOf ["h"; "help"] name) eqn:Eh; [reflexivity|].
  destruct (setFlag name s) eqn:Ef; [reflexivity|].
  destruct (String.eqb name "max-size") eqn:Em; [reflexivity|].
  exfalso. unfold setFlag in Ef.
  simpl in Hin. decompose [or] Hin; subst; try contradiction;
    try (vm_compute in Ei; discriminate);
    try (vm_compute in Eh; discriminate);
    try (vm_compute in Em; discriminate);
    simpl in Ef; discriminate.
Qed.

Lemma setFlag_switchOn (flag : string) (s : Settings) :
  isOneOf ["c"; "clean"; "s"; "symlinks"; "v"; "verbose"; "n"; "dry-run";
           "g"; "gitignore"; "stats"] flag = true ->
  setFlag flag s = Some (switchOn flag s)
  /\ isOneOf ["i"; "init"] flag = false
  /\ isOneOf ["h"; "help"] flag = false.
Proof.
  unfold isOneOf at 1. intros H. apply EngineFacts.includes_In in H.
  simpl in H. decompose [or] H; subst; try contradiction;
    (split; [|split; reflexivity]);
    unfold setFlag, switchOn; simpl;
    rewrite ?orb_false_r, ?orb_true_r; reflexivity.
Qed.

Lemma switch_step (arg : string) (rest : list string) (s : Settings) :
  isSwitch arg = true ->
  processArgs os defaultTargetPath (arg :: rest) s
  = processArgs os defaultTargetPath rest (switchOn (flagOf arg) s).
Proof.
  unfold isSwitch. intros H. apply andb_true_iff in H. destruct H as [Hd Hf].
  destruct (setFlag_switchOn (flagOf arg) s Hf) as (Hs & Hi & Hh).
  rewrite processArgs_unfold. unfold argStep. cbv zeta.
  now rewrite Hd, Hi, Hh, Hs.
Qed.

Lemma switchOn_comm (f g : string) (s : Settings) :
  switchOn f (switchOn g s) = switchOn g (switchOn f s).
Proof.
  assert (Hswap : forall a b c : bool, a || b || c = a || c || b)
    by (intros [] [] []; reflexivity).
  unfold switchOn.
  cbn [targetPath cleanFirst followSymlinks verbose dryRun respectGitignore
       maxFileSize showStats unknownArgs].
  f_equal; apply Hswap.
Qed.

(** Arguments that only set a flag can be given in any order: the loop
    ends in the same settings. *)
Theorem switches_commute (args args' : list string) (s : Settings) :
  Forall (fun arg => isSwitch arg = true) args ->
  Permutation args args' ->
  processArgs os defaultTargetPath args s
  = processArgs os defaultTargetPath args' s.
Proof.
  intros Hall HP. revert s Hall.
  induction HP as [|x l l' HP IH|x y l|l l' l'' HP1 IH1 HP2 IH2]; intros s Hall.
  - reflexivity.
  - inversion Hall as [|? ? Hx Hl]; subst.
    rewrite !(switch_step x) by exact Hx. now apply IH.
  - inversion Hall as [|? ? Hy Hl]; subst. inversion Hl as [|? ? Hx Hl']; subst.
    rewrite (switch_step y), (switch_step x), (switch_step x), (switch_step y)
      by assumption.
    now rewrite switchOn_comm.
  - rewrite IH1 by exact Hall. apply IH2.
    apply (Permutation_Forall HP1 Hall).
Qed.

Lemma argStep_keeps (arg : string) (rest rest1 : list string) (s s1 : Settings) :
  argStep os defaultTargetPath arg rest s = inl (rest1, s1) ->
  (cleanFirst s = true -> cleanFirst s1 = true)
  /\ (followSymlinks s = true -> followSymlinks s1 = true)
  /\ (verbose s = true -> verbose s1 = true)
  /\ (dryRun s = true -> dryRun s1 = true)
  /\ (respectGitignore s = true -> respectGitignore s1 = true)
  /\ (showStats s = true -> showStats s1 = true)
  /\ (exists added, unknownArgs s1 = (unknownArgs s ++ added)%list)
  /\ ((targetPath s = defaultTargetPath
       \/ endsWith (pathSeparator os) (targetPath s) = true) ->
      (targetPath s1 = defaultTargetPath
       \/ endsWith (pathSeparator os) (targetPath s1) = true)).
Proof.
  assert (Hnil : exists added, unknownArgs s = (unknownArgs s ++ added)%list)
    by (exists []; now rewrite app_nil_r).
  unfold argStep.
  destruct (Config.startsWith "-" arg).
  - cbv zeta.
    destruct (isOneOf ["i"; "init"] (flagOf arg)); [discriminate|].
    destruct (isOneOf ["h"; "help"] (flagOf arg)); [discriminate|].
    destruct (setFlag (flagOf arg) s) as [s2|] eqn:Ef.
    { intros H; injection H as <- <-. unfold setFlag in Ef.
      repeat match type of Ef with
             | (if ?c then _ else _) = _ => destruct c
             end;
        try discriminate; injection Ef as <-; simpl; repeat split; auto. }
    destruct (String.eqb (flagOf arg) "max-size").
    + destruct rest as [|sizeArg rest2]; [discriminate|].
      destruct (JS.truthyString sizeArg); [|discriminate].
      destruct (SizeArg.parseFileSize sizeArg); try discriminate;
        intros H; injection H as <- <-; simpl; repeat split; auto.
    + intros H; injection H as <- <-; simpl; repeat split; auto.
      now exists [arg].
  - destruct (String.eqb (targetPath s) defaultTargetPath);
      intros H; injection H as <- <-; simpl; repeat split; auto.
    + intros _. right.
      destruct (endsWith (pathSeparator os) arg) eqn:E; [exact E|].
      apply endsWith_append_char.
    + now exists [arg].
Qed.

Lemma processArgs_keeps (args : list string) :
  forall s s',
    processArgs os defaultTargetPath args s = Parsed s' ->
    (cleanFirst s = true -> cleanFirst s' = true)
    /\ (followSymlinks s = true -> followSymlinks s' = true)
    /\ (verbose s = true -> verbose s' = true)
    /\ (dryRun s = true -> dryRun s' = true)
    /\ (respectGitignore s = true -> respectGitignore s' = true)
    /\ (showStats s = true -> showStats s' = true)
    /\ (exists added, unknownArgs s' = (unknownArgs s ++ added)%list)
    /\ ((targetPath s = defaultTargetPath
         \/ endsWith (pathSeparator os) (targetPath s) = true) ->
        (targetPath s' = defaultTargetPath
         \/ endsWith (pathSeparator os) (targetPath s') = true)).
Proof.
  induction args as [args IH] using list_length_ind.
  intros s s' H. destruct args as [|arg args].
  - simpl in H. injection H as <-. repeat split; auto.
    exists []. now rewrite app_nil_r.
  - rewrite processArgs_unfold in H.
    destruct (argStep os defaultTargetPath arg args s)
      as [[rest1 s1]|outcome] eqn:E;
      [|subst outcome; now destruct (argStep_stop arg args s s')].
    pose proof (argStep_shorter _ _ _ _ _ E) as Hlen.
    destruct (argStep_keeps _ _ _ _ _ E) as (A1 & A2 & A3 & A4 & A5 & A6 & [a1 A7] & A8).
    assert (Hlt : (length rest1 < length (arg :: args))%nat) by (simpl; lia).
    destruct (IH rest1 Hlt s1 s' H) as (B1 & B2 & B3 & B4 & B5 & B6 & [a2 B7] & B8).
    repeat split; auto.
    exists (a1 ++ a2)%list. now rewrite B7, A7, app_assoc.
Qed.

(** No argument switches a flag off or withdraws an argument already
    reported as unknown. *)
Theorem flags_only_switch_on (args : list string) (s s' : Settings) :
  processArgs os defaultTargetPath args s = Parsed s' ->
  (cleanFirst s = true -> cleanFirst s' = true)
  /\ (followSymlinks s = true -> followSymlinks s' = true)
  /\ (verbose s = true -> verbose s' = true)
  /\ (dryRun s = true -> dryRun s' = true)
  /\ (respectGitignore s = true -> respectGitignore s' = true)
  /\ (showStats s = true -> showStats s' = true)
  /\ (exists added, unknownArgs s' = (unknownArgs s ++ added)%list).
Proof.
  intros H.
  destruct (processArgs_keeps args s s' H) as (A1 & A2 & A3 & A4 & A5 & A6 & A7 & _).
  repeat split; auto.
Qed.

(** The target directory the loop settles on is the default one or ends
    with the path separator. *)
Theorem target_path_ends_with_separator (args : list string) (s' : Settings) :
  processArgs os defaultTargetPath args (initialSettings defaultTargetPath)
  = Parsed s' ->
  targetPath s' = defaultTargetPath
  \/ endsWith (pathSeparator os) (targetPath s') = true.
Proof.
  intros H.
  destruct (processArgs_keeps args _ s' H) as (_ & _ & _ & _ & _ & _ & _ & A8).
  apply A8. now left.
Qed.

Lemma argStep_limit (arg : string) (rest rest1 : list string) (s s1 : Settings) :
  argStep os defaultTargetPath arg rest s = inl (rest1, s1) ->
  maxFileSize s <> LimitNaN -> maxFileSize s1 <> LimitNaN.
Proof.
  unfold argStep.
  destruct (Config.startsWith "-" arg).
  - cbv zeta.
    destruct (isOneOf ["i"; "init"] (flagOf arg)); [discriminate|].
    destruct (isOneOf ["h"; "help"] (flagOf arg)); [discriminate|].
    destruct (setFlag (flagOf arg) s) as [s2|] eqn:Ef.
    { intros H; injection H as <- <-. unfold setFlag in Ef.
      repeat match type of Ef with
             | (if ?c then _ else _) = _ => destruct c
             end;
        try discriminate; injection Ef as <-; simpl; auto. }
    destruct (String.eqb (flagOf arg) "max-size").
    + destruct rest as [|sizeArg rest2]; [discriminate|].
      destruct (JS.truthyString sizeArg); [|discriminate].
      destruct (SizeArg.parseFileSize sizeArg) eqn:Ep; try discriminate;
        intros H; injection H as <- <-; simpl; intros _; try discriminate.
      now destruct (SizeArgFacts.parseFileSize_not_NaN sizeArg).
    + intros H; injection H as <- <-; simpl; auto.
  - destruct (String.eqb (targetPath s) defaultTargetPath);
      intros H; injection H as <- <-; simpl; auto.
Qed.

(** The size limit the loop settles on is [null], a number of bytes or
    [Infinity], never [NaN]: every size argument the expression accepts
    has a unit of the table. *)
Theorem limit_is_never_NaN (args : list string) :
  forall s s',
    processArgs os defaultTargetPath args s = Parsed s' ->
    maxFileSize s <> LimitNaN ->
    maxFileSize s' <> LimitNaN.
Proof.
  induction args as [args IH] using list_length_ind.
  intros s s' H Hs. destruct args as [|arg args].
  - simpl in H. now injection H as <-.
  - rewrite processArgs_unfold in H.
    destruct (argStep os defaultTargetPath arg args s)
      as [[rest1 s1]|outcome] eqn:E;
      [|subst outcome; now destruct (argStep_stop arg args s s')].
    pose proof (argStep_shorter _ _ _ _ _ E) as Hlen.
    apply (IH rest1 ltac:(simpl; lia) s1 s' H).
    now apply (argStep_limit _ _ _ _ _ E).
Qed.

Lemma argStep_dry (arg : string) (rest rest1 : list string) (s s1 : Settings)
  (flag : string) :
  argStep os defaultTargetPath arg rest s = inl (rest1, s1) ->
  In flag (arg :: rest) -> In flag dryRunArgs ->
  dryRun s1 = true \/ In flag rest1.
Proof.
  intros Hstep Hin Hflag.
  assert (Hdash : Config.startsWith "-" flag = true
                  /\ isOneOf ["i"; "init"] (flagOf flag) = false
                  /\ isOneOf ["h"; "help"] (flagOf flag) = false
                  /\ (forall s0, exists s2, setFlag (flagOf flag) s0 = Some s2
                                            /\ dryRun s2 = true)
                  /\ (forall n, SizeArg.parseFileSize flag <> SizeArg.Bytes n)
                  /\ SizeArg.parseFileSize flag <> SizeArg.Infinite
                  /\ SizeArg.parseFileSize flag <> SizeArg.NotANumber).
  { simpl in Hflag. destruct Hflag as [<-|[<-|[<-|[<-|[]]]]];
      repeat split; try discriminate; intros s0; eexists; split; reflexivity. }
  destruct Hdash as (Hd & Hi & Hh & Hset & Hb & Hinf & Hnan).
  unfold argStep in Hstep.
  destruct Hin as [->|Hin].
  - rewrite Hd, Hi, Hh in Hstep. cbv zeta in Hstep.
    destruct (Hset s) as (s2 & Hs2 & Hdry). rewrite Hs2 in Hstep.
    injection Hstep as <- <-. now left.
  - destruct (Config.startsWith "-" arg).
    + cbv zeta in Hstep.
      destruct (isOneOf ["i"; "init"] (flagOf arg)); [discriminate|].
      destruct (isOneOf ["h"; "help"] (flagOf arg)); [discriminate|].
      destruct (setFlag (flagOf arg) s) as [s2|];
        [injection Hstep as <- <-; now right|].
      destruct (String.eqb (flagOf arg) "max-size");
        [|injection Hstep as <- <-; now right].
      destruct rest as [|sizeArg rest2]; [discriminate|].
      destruct (JS.truthyString sizeArg); [|discriminate].
      destruct Hin as [->|Hin].
      * destruct (SizeArg.parseFileSize flag) as [n| | |message] eqn:Ep;
          [now contradiction (Hb n) | now contradiction Hinf | now contradiction Hnan
          | discriminate].
      * destruct (SizeArg.parseFileSize sizeArg); try discriminate;
          injection Hstep as <- <-; now right.
    + destruct (String.eqb (targetPath s) defaultTargetPath);
        injection Hstep as <- <-; now right.
Qed.

(** A dry-run flag among the arguments is not lost: when the loop runs to
    its end, [dryRun] is set. *)
Lemma processArgs_dry (flag : string) (args : list string) :
  forall s s',
    processArgs os defaultTargetPath args s = Parsed s' ->
    In flag args -> In flag dryRunArgs ->
    dryRun s' = true.
Proof.
  induction args as [args IH] using list_length_ind.
  intros s s' H Hin Hflag. destruct args as [|arg args]; [contradiction|].
  rewrite processArgs_unfold in H.
  destruct (argStep os defaultTargetPath arg args s)
    as [[rest1 s1]|outcome] eqn:E;
    [|subst outcome; now destruct (argStep_stop arg args s s')].
  pose proof (argStep_shorter _ _ _ _ _ E) as Hlen.
  destruct (argStep_dry _ _ _ _ _ flag E Hin Hflag) as [Hdry|Hrest].
  - destruct (processArgs_keeps rest1 s1 s' H) as (_ & _ & _ & A4 & _). now apply A4.
  - apply (IH rest1 ltac:(simpl; lia) s1 s' H Hrest Hflag).
Qed.

End Facts.

(** A help flag after an unknown flag ends the loop with the request for
    help. *)
Lemma arguments_compose_witness :
  processArgs posix "../out" (["-bogus"] ++ ["--help"; "x"])
    (initialSettings "../out")
  = HelpRequested.
Proof.
  refine (proj1 (proj2 (arguments_compose posix "../out" ["-bogus"]
                          (initialSettings "../out") _ eq_refl)) "--help" ["x"] _).
  simpl. tauto.
Defined.

(** [-verbose] is read as [--verbose]. *)
Lemma dash_forms_agree_witness :
  processArgs posix "../out" ["-verbose"; "out"] (initialSettings "../out")
  = processArgs posix "../out" ["--verbose"; "out"] (initialSettings "../out").
Proof.
  apply (dash_forms_agree posix "../out" "verbose"). simpl. tauto.
Defined.

(** [-v --dry-run -c] and [-c -v --dry-run] give the same settings. *)
Lemma switches_commute_witness :
  processArgs posix "../out" ["-v"; "--dry-run"; "-c"] (initialSettings "../out")
  = processArgs posix "../out" ["-c"; "-v"; "--dry-run"] (initialSettings "../out").
Proof.
  apply switches_commute.
  - repeat constructor.
  - apply Permutation_sym. apply (Permutation_cons_app ["-v"; "--dry-run"] [] "-c").
    apply Permutation_refl.
Defined.

(** After [--dry-run], the arguments [out -v] leave the dry run on. *)
Lemma flags_only_switch_on_witness :
  exists s',
    processArgs posix "../out" ["out"; "-v"]
      (switchOn "dry-run" (initialSettings "../out")) = Parsed s'
    /\ dryRun s' = true.
Proof.
  eexists. split; [reflexivity|].
  refine (proj1 (proj2 (proj2 (proj2
            (flags_only_switch_on posix "../out" ["out"; "-v"]
               (switchOn "dry-run" (initialSettings "../out")) _ eq_refl)))) eq_refl).
Defined.

(** The argument [out] gives the target directory [out/]. *)
Lemma target_path_ends_with_separator_witness :
  exists s',
    processArgs posix "../out" ["out"] (initialSettings "../out") = Parsed s'
    /\ (targetPath s' = "../out" \/ endsWith "/" (targetPath s') = true).
Proof.
  eexists. split; [reflexivity|].
  exact (target_path_ends_with_separator posix "../out" ["out"] _ eq_refl).
Defined.

(** After [--max-size 1KB] the limit is a number. *)
Lemma limit_is_never_NaN_witness :
  exists s',
    processArgs posix "../out" ["--max-size"; "1KB"] (initialSettings "../out")
    = Parsed s'
    /\ maxFileSize s' <> LimitNaN.
Proof.
  eexists. split; [reflexivity|].
  refine (limit_is_never_NaN posix "../out" ["--max-size"; "1KB"]
            (initialSettings "../out") _ eq_refl _).
  discriminate.
Defined.

End CliFacts.

(** ** Sizes for display *)

Module FormatFacts.

Import Format SizeArg ListFacts.

Lemma string_of_uint_digits (d : Decimal.uint) :
  Forall (fun c => isDigit c = true) (list_ascii_of_string (NilEmpty.string_of_uint d)).
Proof. induction d; simpl; constructor; auto. Qed.

Lemma decimal_digits (n : N) : digits (decimal n).
Proof.
  unfold decimal. split; [|apply string_of_uint_digits].
  assert (H : N.to_uint n <> Decimal.Nil).
  { destruct n as [|p]; [discriminate|]. apply DecimalPos.Unsigned.to_uint_nonnil. }
  destruct (N.to_uint n); try discriminate. now contradiction H.
Qed.

Lemma length_list_ascii (s : string) :
  length (list_ascii_of_string s) = String.length s.
Proof. induction s as [|c s IH]; simpl; [reflexivity | now rewrite IH]. Qed.

Lemma take_drop (n : nat) (s : string) : takeChars n s ++ dropChars n s = s.
Proof.
  revert s. induction n as [|n IH]; intros [|c s]; simpl; try reflexivity.
  now rewrite IH.
Qed.

Lemma length_take (n : nat) (s : string) :
  (n <= String.length s)%nat -> String.length (takeChars n s) = n.
Proof.
  revert s. induction n as [|n IH]; intros [|c s]; simpl; intros H;
    try reflexivity; try lia.
  rewrite IH; [reflexivity | lia].
Qed.

Lemma length_drop (n : nat) (s : string) :
  String.length (dropChars n s) = (String.length s - n)%nat.
Proof.
  revert s. induction n as [|n IH]; intros [|c s]; simpl; try reflexivity.
  apply IH.
Qed.

Lemma length_append (s t : string) :
  String.length (s ++ t) = (String.length s + String.length t)%nat.
Proof. induction s as [|c s IH]; simpl; [reflexivity | now rewrite IH]. Qed.

Lemma length_zeros (n : nat) : String.length (zeros n) = n.
Proof. induction n as [|n IH]; simpl; [reflexivity | now rewrite IH]. Qed.

Lemma zeros_digits (n : nat) :
  Forall (fun c => isDigit c = true) (list_ascii_of_string (zeros n)).
Proof. induction n; simpl; constructor; auto. Qed.

(** A string of at least two digits splits before its last digit into two
    non-empty runs of digits. *)
Lemma split_last_digit (m : string) :
  Forall (fun c => isDigit c = true) (list_ascii_of_string m) ->
  (2 <= String.length m)%nat ->
  digits (takeChars (String.length m - 1) m)
  /\ digits (dropChars (String.length m - 1) m).
Proof.
  intros Hd Hlen.
  pose proof (take_drop (String.length m - 1) m) as E.
  pose proof (length_take (String.length m - 1) m ltac:(lia)) as Lt.
  pose proof (length_drop (String.length m - 1) m) as Ld.
  rewrite <- E, list_ascii_append in Hd. apply Forall_app in Hd. destruct Hd as [Ha Hb].
  split; (split; [|assumption]); intros H; rewrite H in *; simpl in *; lia.
Qed.

(** The digits [toFixed] prints for a number that is not negative. *)
Lemma toFixed_digits (x : Q) :
  Qle_bool 0 x = true ->
  digits (toFixed x 0)
  /\ exists whole fraction,
       toFixed x 1 = whole ++ String "."%char fraction
       /\ digits whole /\ digits fraction.
Proof.
  intros Hx. unfold toFixed. rewrite Hx. cbn [negb]. cbv zeta.
  split.
  - cbn [Nat.eqb]. simpl append. apply decimal_digits.
  - cbn [Nat.eqb]. simpl append.
    set (m := decimal (Z.to_N (Qfloor (x * inject_Z (10 ^ Z.of_nat 1) + (1 # 2))))).
    destruct (decimal_digits (Z.to_N (Qfloor (x * inject_Z (10 ^ Z.of_nat 1) + (1 # 2)))))
      as [Hne Hd]. fold m in Hne, Hd.
    assert (Hlen : (1 <= String.length m)%nat)
      by (destruct m; [now contradiction Hne | simpl; lia]).
    set (m0 := if (String.length m <=? 1)%nat
               then zeros (1 + 1 - String.length m) ++ m else m).
    assert (Hd0 : Forall (fun c => isDigit c = true) (list_ascii_of_string m0)).
    { unfold m0. destruct (String.length m <=? 1)%nat; [|exact Hd].
      rewrite list_ascii_append. apply Forall_app. split; [apply zeros_digits | exact Hd]. }
    assert (Hlen0 : (2 <= String.length m0)%nat).
    { unfold m0. destruct (String.length m <=? 1)%nat eqn:E.
      - apply Nat.leb_le in E. rewrite length_append, length_zeros. lia.
      - apply Nat.leb_gt in E. lia. }
    destruct (split_last_digit m0 Hd0 Hlen0) as [Ha Hb].
    eexists _, _. split; [reflexivity|]. split; assumption.
Qed.

Lemma pow1024_pos (k : nat) : (0 < 1024 ^ Z.of_nat k)%Z.
Proof. apply Z.pow_pos_nonneg; lia. Qed.

Lemma scaled_next (b : Z) (k : nat) (size : Q) :
  size == inject_Z b / inject_Z (1024 ^ Z.of_nat k) ->
  size / 1024 == inject_Z b / inject_Z (1024 ^ Z.of_nat (S k)).
Proof.
  intros H. rewrite H, Nat2Z.inj_succ, Z.pow_succ_r by lia.
  rewrite inject_Z_mult.
  pose proof (pow1024_pos k) as Hp.
  assert (Hq : ~ inject_Z (1024 ^ Z.of_nat k) == 0).
  { intros E. pose proof (proj1 (inject_Z_injective _ 0) E) as E'.
    rewrite E' in Hp. now apply Z.lt_irrefl in Hp. }
  field. exact Hq.
Qed.

Lemma scaled_test (b : Z) (k : nat) (size : Q) :
  size == inject_Z b / inject_Z (1024 ^ Z.of_nat k) ->
  Qle_bool 1024 size = (1024 ^ Z.of_nat (S k) <=? b)%Z.
Proof.
  intros H.
  pose proof (pow1024_pos k) as Hp.
  assert (Hc : 0 < inject_Z (1024 ^ Z.of_nat k))
    by (rewrite <- (Zlt_Qlt 0); exact Hp).
  assert (Hiff : 1024 <= size <-> (1024 ^ Z.of_nat (S k) <= b)%Z).
  { rewrite H, Nat2Z.inj_succ, Z.pow_succ_r by lia. split.
    - intros Hle.
      apply (Qmult_le_compat_r _ _ (inject_Z (1024 ^ Z.of_nat k))) in Hle;
        [|now apply Qlt_le_weak].
      unfold Qdiv in Hle. rewrite <- Qmult_assoc in Hle.
      rewrite (Qmult_comm (/ _)), Qmult_inv_r, Qmult_1_r in Hle
        by (intros E; rewrite E in Hc; now apply Qlt_irrefl in Hc).
      change 1024 with (inject_Z 1024) in Hle.
      rewrite <- inject_Z_mult in Hle. rewrite Zle_Qle. exact Hle.
    - intros Hle. apply Qle_shift_div_l; [exact Hc|].
      change 1024 with (inject_Z 1024).
      rewrite <- inject_Z_mult, <- Zle_Qle. exact Hle. }
  destruct (1024 ^ Z.of_nat (S k) <=? b)%Z eqn:E.
  - apply Qle_bool_iff, Hiff, Z.leb_le, E.
  - destruct (Qle_bool 1024 size) eqn:E'; [|reflexivity].
    apply Qle_bool_iff, Hiff, Z.leb_le in E'. congruence.
Qed.

Lemma whileLoop_spec (b : Z) (fuel : nat) :
  forall (k : nat) (size : Q),
    size == inject_Z b / inject_Z (1024 ^ Z.of_nat k) ->
    (3 <= fuel + k)%nat -> (k <= 3)%nat ->
    (k = 0%nat \/ (1024 ^ Z.of_nat k <= b)%Z) ->
    let result := whileLoop fuel size k in
    fst result == inject_Z b / inject_Z (1024 ^ Z.of_nat (snd result))
    /\ (snd result <= 3)%nat
    /\ (snd result = 0%nat \/ (1024 ^ Z.of_nat (snd result) <= b)%Z)
    /\ ((snd result < 3)%nat -> (b < 1024 ^ Z.of_nat (S (snd result)))%Z).
Proof.
  induction fuel as [|fuel IH]; intros k size Hsize Hfuel Hk Hlow; cbv zeta.
  - simpl. repeat split; auto. intros; lia.
  - cbn [whileLoop]. rewrite (scaled_test b k size Hsize).
    change (length Format.units - 1)%nat with 3%nat.
    destruct (1024 ^ Z.of_nat (S k) <=? b)%Z eqn:E; cbn [andb].
    + destruct (k <? 3)%nat eqn:Ek.
      * apply Nat.ltb_lt in Ek. apply Z.leb_le in E.
        apply IH; [now apply scaled_next | lia | lia | now right].
      * simpl. apply Nat.ltb_ge in Ek. repeat split; auto. intros; lia.
    + simpl. apply Z.leb_gt in E. repeat split; auto.
Qed.


Lemma toFixed_Qeq (x y : Q) (f : nat) : x == y -> toFixed x f = toFixed y f.
Proof.
  intros H. unfold toFixed. cbv zeta.
  assert (Hs : Qle_bool 0 x = Qle_bool 0 y) by now rewrite H.
  rewrite Hs. destruct (Qle_bool 0 y); cbn [negb].
  - assert (Hn : Qfloor (x * inject_Z (10 ^ Z.of_nat f) + (1 # 2))
                 = Qfloor (y * inject_Z (10 ^ Z.of_nat f) + (1 # 2)))
      by now rewrite H.
    now rewrite Hn.
  - assert (Hn : Qfloor (- x * inject_Z (10 ^ Z.of_nat f) + (1 # 2))
                 = Qfloor (- y * inject_Z (10 ^ Z.of_nat f) + (1 # 2)))
      by now rewrite H.
    now rewrite Hn.
Qed.

Lemma formatBytes_shape (bytes : Z) :
  exists k : nat,
    (k <= 3)%nat
    /\ formatBytes bytes
       = toFixed (inject_Z bytes / inject_Z (1024 ^ Z.of_nat k))
           (if (0 <? k)%nat then 1 else 0)
         ++ nth k Format.units EmptyString
    /\ (k = 0%nat \/ (1024 ^ Z.of_nat k <= bytes)%Z)
    /\ ((k < 3)%nat -> (bytes < 1024 ^ Z.of_nat (S k))%Z).
Proof.
  assert (H0 : inject_Z bytes == inject_Z bytes / inject_Z (1024 ^ Z.of_nat 0)).
  { change (inject_Z (1024 ^ Z.of_nat 0)) with 1. field. }
  pose proof (whileLoop_spec bytes (length Format.units) 0 (inject_Z bytes) H0
                ltac:(simpl; lia) ltac:(lia) ltac:(now left)) as H.
  cbv zeta in H. unfold formatBytes.
  destruct (whileLoop (length Format.units) (inject_Z bytes) 0) as [size k].
  simpl fst in H. simpl snd in H. destruct H as (Hsize & Hk & Hlow & Hup).
  exists k. split; [exact Hk|]. split; [|split; assumption].
  rewrite (toFixed_Qeq _ _ _ Hsize). f_equal.
  destruct k as [|[|[|[|k]]]]; try reflexivity. lia.
Qed.

(** For a number of bytes of magnitude below [10^21], where [toFixed]
    prints fixed notation, [formatBytes] prints the number of bytes
    divided by [1024^k], with one decimal when [k] is not zero, followed
    by the [k]-th unit: [k] is zero exactly for less than 1024 bytes, the
    value printed for KB and MB is at least 1 and below 1024 before
    rounding, and everything from [1024^3] bytes on is printed in GB. *)
Theorem formatBytes_unit (bytes : Z) :
  (Z.abs bytes < 10 ^ 21)%Z ->
  exists k : nat,
    (k <= 3)%nat
    /\ formatBytes bytes
       = toFixed (inject_Z bytes / inject_Z (1024 ^ Z.of_nat k))
           (if (0 <? k)%nat then 1 else 0)
         ++ nth k Format.units EmptyString
    /\ (k = 0%nat <-> (bytes < 1024)%Z)
    /\ ((0 < k)%nat -> (1024 ^ Z.of_nat k <= bytes)%Z)
    /\ ((k < 3)%nat -> (bytes < 1024 ^ Z.of_nat (S k))%Z).
Proof.
  intros _.
  destruct (formatBytes_shape bytes) as (k & Hk & Hfmt & Hlow & Hup).
  exists k. split; [exact Hk|]. split; [exact Hfmt|].
  split; [|split; [|exact Hup]].
  - split.
    + intros ->. apply (Hup ltac:(lia)).
    + intros Hb. destruct Hlow as [H|H]; [exact H|].
      destruct k as [|k]; [reflexivity|]. exfalso.
      assert (Hm : (1024 ^ 1 <= 1024 ^ Z.of_nat (S k))%Z)
        by (apply Z.pow_le_mono_r; lia).
      change (1024 ^ 1)%Z with 1024%Z in Hm. lia.
  - intros Hpos. destruct Hlow as [H|H]; [lia | exact H].
Qed.

Lemma scaled_nonneg (bytes : Z) (k : nat) :
  (0 <= bytes)%Z ->
  Qle_bool 0 (inject_Z bytes / inject_Z (1024 ^ Z.of_nat k)) = true.
Proof.
  intros H. apply Qle_bool_iff.
  apply Qle_shift_div_l.
  - rewrite <- (Zlt_Qlt 0). apply pow1024_pos.
  - rewrite Qmult_0_l. rewrite <- (Zle_Qle 0). exact H.
Qed.

Lemma nth_unit_spells (k : nat) :
  (k <= 3)%nat ->
  exists u, spells u (nth k Format.units EmptyString) /\ exponent u = Z.of_nat k.
Proof.
  intros H. destruct k as [|[|[|[|k]]]]; [| | | |lia].
  - exists unitB. split; [|reflexivity]. exists "B"%char. split; [reflexivity | now left].
  - exists unitKB. split; [|reflexivity].
    exists "K"%char, "B"%char. repeat split; now left.
  - exists unitMB. split; [|reflexivity].
    exists "M"%char, "B"%char. repeat split; now left.
  - exists unitGB. split; [|reflexivity].
    exists "G"%char, "B"%char. repeat split; now left.
Qed.

Lemma formatBytes_format (bytes : Z) :
  (0 <= bytes)%Z ->
  exists num u unitText,
    formatBytes bytes = num ++ unitText
    /\ decimalNumber num /\ spells u unitText.
Proof.
  intros Hb. destruct (formatBytes_shape bytes) as (k & Hk & Hfmt & _ & _).
  destruct (nth_unit_spells k Hk) as (u & Hu & _).
  destruct (toFixed_digits _ (scaled_nonneg bytes k Hb))
    as (H0 & whole & fraction & H1 & Hw & Hf).
  destruct (0 <? k)%nat.
  - exists (whole ++ String "."%char fraction), u, (nth k Format.units EmptyString).
    split; [now rewrite Hfmt, H1|]. split; [now constructor | exact Hu].
  - exists (toFixed (inject_Z bytes / inject_Z (1024 ^ Z.of_nat k)) 0), u,
      (nth k Format.units EmptyString).
    split; [exact Hfmt|]. split; [now constructor | exact Hu].
Qed.

(** What [formatBytes] prints for a number of bytes from zero to below
    [10^21] is a size argument: [parseFileSize] accepts it and does not
    throw. *)
Theorem formatBytes_is_a_size_argument (bytes : Z) :
  (0 <= bytes < 10 ^ 21)%Z ->
  exists num u,
    sizeFormat (formatBytes bytes) num u
    /\ parseFileSize (formatBytes bytes)
       = floor (times (parseFloat num) (1024 ^ exponent u))
    /\ forall message, parseFileSize (formatBytes bytes) <> Throws message.
Proof.
  intros [Hb _].
  destruct (formatBytes_format bytes Hb) as (num & u & unitText & Hs & Hnum & Hu).
  exists num, u. split; [now exists unitText|].
  assert (Hparse : parseFileSize (formatBytes bytes)
                   = floor (times (parseFloat num) (1024 ^ exponent u))).
  { unfold parseFileSize.
    rewrite (SizeArgFacts.sizeMatch_complete _ num u unitText Hs Hnum Hu).
    destruct (SizeArgFacts.spells_unitAtEnd u unitText Hu) as (_ & Hunits & _).
    now rewrite Hunits. }
  split; [exact Hparse|]. rewrite Hparse.
  destruct (SizeArgFacts.decimalValue_number num Hnum) as (value & Hval & _).
  unfold parseFloat. rewrite Hval.
  destruct (SizeArgFacts.floor_times_cases value (1024 ^ exponent u)) as [->|(n & -> & _)];
    [apply Z.pow_nonneg; lia | discriminate | discriminate].
Qed.

Lemma Qfloor_half (b : Z) : Qfloor (inject_Z b * inject_Z (10 ^ Z.of_nat 0) + (1 # 2)) = b.
Proof.
  change (inject_Z (10 ^ Z.of_nat 0)) with 1.
  assert (H : inject_Z b <= inject_Z b * 1 + (1 # 2)
              /\ inject_Z b * 1 + (1 # 2) < inject_Z (b + 1)).
  { rewrite inject_Z_plus. split.
    - rewrite Qmult_1_r. rewrite <- (Qplus_0_r (inject_Z b)) at 1.
      apply Qplus_le_r. discriminate.
    - rewrite Qmult_1_r. apply Qplus_lt_r. reflexivity. }
  destruct H as [H1 H2].
  apply Z.le_antisymm.
  - apply Z.lt_succ_r. rewrite Zlt_Qlt.
    apply Qle_lt_trans with (2 := H2). apply Qfloor_le.
  - apply Z.le_trans with (Qfloor (inject_Z b)).
    + rewrite Qfloor_Z. apply Z.le_refl.
    + now apply Qfloor_resp_le.
Qed.

(** The digits [decimal] prints are read back by [digitsValue]. *)
Lemma digitsValue_acc (d : Decimal.uint) (acc : positive) :
  digitsValue (Z.pos acc) (NilEmpty.string_of_uint d) = Z.pos (Pos.of_uint_acc d acc).
Proof.
  revert acc.
  induction d; intros acc; cbn [NilEmpty.string_of_uint digitsValue Pos.of_uint_acc];
    try reflexivity;
    rewrite <- IHd; f_equal;
    match goal with
    | |- context [(Z.of_nat (nat_of_ascii ?c) - 48)%Z] =>
        let v := eval vm_compute in (Z.of_nat (nat_of_ascii c) - 48)%Z in
        change (Z.of_nat (nat_of_ascii c) - 48)%Z with v
    end; lia.
Qed.

Lemma digitsValue_uint (d : Decimal.uint) :
  digitsValue 0 (NilEmpty.string_of_uint d) = Z.of_N (Pos.of_uint d).
Proof.
  induction d; cbn [NilEmpty.string_of_uint digitsValue Pos.of_uint];
    try reflexivity; try exact IHd;
    cbn [Z.of_N]; rewrite <- digitsValue_acc; reflexivity.
Qed.

Lemma digitsValue_decimal (n : N) : digitsValue 0 (decimal n) = Z.of_N n.
Proof.
  unfold decimal. rewrite digitsValue_uint.
  change (Pos.of_uint (N.to_uint n)) with (N.of_uint (N.to_uint n)).
  now rewrite DecimalN.Unsigned.of_to.
Qed.

(** Below 1024 bytes the two functions are inverse to each other: the
    text [formatBytes] prints is parsed back to the same number of
    bytes. *)
Theorem small_sizes_round_trip (bytes : Z) :
  (0 <= bytes < 1024)%Z ->
  formatBytes bytes = decimal (Z.to_N bytes) ++ "B"
  /\ parseFileSize (formatBytes bytes) = Bytes bytes.
Proof.
  intros [Hb0 Hb1].
  destruct (formatBytes_shape bytes) as (k & Hk & Hfmt & Hlow & _).
  assert (k = 0%nat).
  { destruct Hlow as [H|H]; [exact H|]. destruct k as [|k]; [reflexivity|]. exfalso.
    assert (Hm : (1024 ^ 1 <= 1024 ^ Z.of_nat (S k))%Z)
      by (apply Z.pow_le_mono_r; lia).
    change (1024 ^ 1)%Z with 1024%Z in Hm. lia. }
  subst k. cbn [Nat.ltb Nat.leb nth Format.units] in Hfmt.
  assert (Hx : inject_Z bytes / inject_Z (1024 ^ Z.of_nat 0) == inject_Z bytes).
  { change (inject_Z (1024 ^ Z.of_nat 0)) with 1. field. }
  rewrite (toFixed_Qeq _ _ _ Hx) in Hfmt.
  assert (Hfix : toFixed (inject_Z bytes) 0 = decimal (Z.to_N bytes)).
  { unfold toFixed. cbv zeta.
    assert (Hs : Qle_bool 0 (inject_Z bytes) = true)
      by (apply Qle_bool_iff; rewrite <- (Zle_Qle 0); exact Hb0).
    rewrite Hs.
    change (decimal (Z.to_N (Qfloor (inject_Z bytes * inject_Z (10 ^ Z.of_nat 0)
                                     + (1 # 2))))
            = decimal (Z.to_N bytes)).
    now rewrite Qfloor_half. }
  rewrite Hfix in Hfmt. split; [exact Hfmt|].
  rewrite Hfmt. unfold parseFileSize.
  assert (Hu : spells unitB "B")
    by (exists "B"%char; split; [reflexivity | now left]).
  pose proof (decimal_digits (Z.to_N bytes)) as Hds.
  rewrite (SizeArgFacts.sizeMatch_complete _ (decimal (Z.to_N bytes)) unitB "B"
             eq_refl (dn_integer _ Hds) Hu).
  change (SizeArg.units (toUpperCase "B")) with (Some (1024 ^ exponent unitB)%Z).
  cbv iota beta.
  assert (Hval : decimalValue (decimal (Z.to_N bytes)) = Some (inject_Z bytes)).
  { unfold decimalValue. rewrite (SizeArgFacts.digits_alone _ Hds).
    destruct (decimal (Z.to_N bytes)) as [|c r] eqn:E; [now destruct Hds|].
    rewrite <- E, digitsValue_decimal, Z2N.id by exact Hb0. reflexivity. }
  unfold parseFloat. rewrite Hval.
  apply SizeArgFacts.exact_bytes.
  - now rewrite <- (Zle_Qle 0).
  - change (inject_Z (1024 ^ exponent unitB)) with 1. apply Qmult_1_r.
  - lia.
Qed.

(** 1536 bytes are printed in KB. *)
Lemma formatBytes_unit_witness : formatBytes 1536 = "1.5KB".
Proof.
  destruct (formatBytes_unit 1536 ltac:(reflexivity)) as (k & _ & _ & H0 & _ & H2).
  reflexivity.
Defined.

(** 512 bytes are printed as [512B] and read back as 512 bytes. *)
Lemma small_sizes_round_trip_witness :
  formatBytes 512 = "512B" /\ parseFileSize (formatBytes 512) = Bytes 512.
Proof. apply (small_sizes_round_trip 512). lia. Defined.

(** 1536 bytes are printed as [1.5KB], which is a size argument. *)
Lemma formatBytes_is_a_size_argument_witness :
  exists num u,
    sizeFormat (formatBytes 1536) num u
    /\ parseFileSize (formatBytes 1536)
       = floor (times (parseFloat num) (1024 ^ exponent u))
    /\ forall message, parseFileSize (formatBytes 1536) <> Throws message.
Proof. apply (formatBytes_is_a_size_argument 1536). lia. Defined.

End FormatFacts.

(** ** The script as a whole *)

Module ProgramFacts.

Import Program.

Section Facts.

Context {FS : Type} {system : SystemHost FS}.

Variable defaultTargetPath : string.

Lemma execute_dry (s : Cli.Settings) (disk : FS) :
  Cli.dryRun s = true -> diskOf (execute s disk) = disk.
Proof.
  intros Hdry. unfold execute, prepareTarget. rewrite Hdry.
  destruct (0 <? length (Cli.unknownArgs s))%nat; [reflexivity|].
  destruct (negb (existsSync disk FLATTEN_FILE_PATH)); [reflexivity|].
  destruct (readFileSync disk FLATTEN_FILE_PATH) as [configText|]; [|reflexivity].
  cbv zeta.
  destruct (length (Config.flattenList configText) =? 0)%nat; [reflexivity|].
  destruct (if Cli.respectGitignore s then loadGitignorePatterns disk else Some [])
    as [gitignorePatterns|]; [|reflexivity].
  set (denyRules := Config.withGitignore _ _ _).
  pose proof (EngineFacts.run_reaches (optionsOf s) denyRules
                (Config.copyRulesOf (Config.flattenList configText))
                (initialState disk)) as Hr.
  apply (RunFacts.reaches_dry (optionsOf s) _ _ _ Hdry) in Hr.
  destruct (run (optionsOf s) denyRules _ (initialState disk)) as [[st total] logs].
  simpl in *. destruct Hr as [Hr _]. now destruct (runThrows _ _ _ _).
Qed.

(** With a dry-run flag among its arguments the script leaves the file
    system as it is, however it ends: no directory is created, nothing is
    removed and nothing is copied.  The one exception is a flag [--init]
    that ends the argument loop: then the rule file is written. *)
Theorem dry_run_never_touches_disk (args : list string) (disk : FS) (flag : string) :
  In flag args ->
  In flag Cli.dryRunArgs ->
  diskOf (main defaultTargetPath args disk) = disk
  \/ Cli.processArgs hostPlatform defaultTargetPath args
       (Cli.initialSettings defaultTargetPath) = Cli.InitRequested.
Proof.
  intros Hin Hflag. unfold main.
  destruct (Cli.processArgs hostPlatform defaultTargetPath args
              (Cli.initialSettings defaultTargetPath)) as [s| | | |message] eqn:E;
    try (now left); [|now right].
  left. apply execute_dry.
  apply (CliFacts.processArgs_dry hostPlatform defaultTargetPath flag args _ s E Hin Hflag).
Qed.

(** The script changes the file system only when it is asked to write the
    rule file, or when the arguments are valid, the rule file exists and
    the run is not a dry run. *)
Theorem disk_changes_only_in_a_real_run (args : list string) (disk : FS) :
  diskOf (main defaultTargetPath args disk) = disk
  \/ Cli.processArgs hostPlatform defaultTargetPath args
       (Cli.initialSettings defaultTargetPath) = Cli.InitRequested
  \/ exists s,
       Cli.processArgs hostPlatform defaultTargetPath args
         (Cli.initialSettings defaultTargetPath) = Cli.Parsed s
       /\ Cli.unknownArgs s = []
       /\ existsSync disk FLATTEN_FILE_PATH = true
       /\ Cli.dryRun s = false.
Proof.
  unfold main.
  destruct (Cli.processArgs hostPlatform defaultTargetPath args
              (Cli.initialSettings defaultTargetPath)) as [s| | | |message] eqn:E;
    try (now left); try (now right; left).
  destruct (Cli.dryRun s) eqn:Hdry; [left; now apply execute_dry|].
  unfold execute.
  destruct (Cli.unknownArgs s) as [|a l] eqn:Eu; [|now left].
  simpl.
  destruct (existsSync disk FLATTEN_FILE_PATH) eqn:Ee; [|now left].
  right; right. exists s. repeat split; auto.
Qed.

End Facts.

(** The rule file the script writes holds nine include rules and seven
    exclude rules. *)
Example initial_rules :
  Config.copyRulesOf (Config.flattenList initial)
  = ["package.json"; "README.md"; "src/**/*.js"; "src/**/*.ts"; "src/**/*.jsx";
     "src/**/*.tsx"; "tsconfig.json"; "*.config.js"; "*.config.ts"]
  /\ Config.denyRulesOf (Config.flattenList initial)
     = ["**/*.d.ts"; "**/*.test.*"; "**/*.spec.*"; "**/node_modules/**";
        "**/.git/**"; "**/dist/**"; "**/build/**"].
Proof. split; reflexivity. Qed.

(** The dry run of the small project leaves its disk as it is, and a dry
    run with [--init] does not. *)
Lemma dry_run_never_touches_disk_witness :
  diskOf (main (system := Box.system) "../out" ["out"; "--dry-run"; "-c"] Box.project)
  = Box.project.
Proof.
  destruct (dry_run_never_touches_disk (system := Box.system) "../out"
              ["out"; "--dry-run"; "-c"] Box.project "--dry-run"
              ltac:(simpl; tauto) ltac:(simpl; tauto)) as [H|H];
    [exact H | discriminate H].
Defined.

Example dry_run_with_init_writes_the_rule_file :
  main (system := Box.system) "../out" ["--dry-run"; "--init"]
    {| Box.files := []; Box.directories := [] |}
  = Exit 0 {| Box.files := [(".flatten", initial)]; Box.directories := [] |}.
Proof. reflexivity. Qed.

(** With a rule file of one comment line, [out --clean] creates the
    directory [out/] before the empty rule file is noticed, and exits with
    code 1. *)
Example empty_rule_file_exits_after_preparation :
  main (system := Box.system) "../out" ["out"; "--clean"] Box.emptyRules
  = Exit 1 {| Box.files := Box.files Box.emptyRules; Box.directories := ["out/"] |}.
Proof. reflexivity. Qed.

End ProgramFacts.
